(** * Stash Duplicate Finder: the duplicate-detection engine of [main.py]

    A shallow embedding of the four grouping strategies
    ([find_duplicates_by_stashid], [find_duplicates_by_name],
    [find_duplicates_by_oshash], [find_duplicates_by_phash]) and of the two
    request handlers that fetch the catalog ([root], [find_duplicates]),
    followed by the properties the specification states about them.

    Conventions of the embedding.
    - A Python [str] is a [string]; each character is a code point below 256.
    - A Python [dict] whose iteration order is observable (the buckets, the
      returned groups) is an insertion-ordered association list, [Dict.t].
    - The JSON objects of a scene ([Dict[str, str]] entries of [stash_ids],
      the fingerprint objects) are [gmap string string]; [d.get(k)] is
      [d !! k].
    - The Python [set] of consumed titles is a [gset string].
    - [fuzz.ratio] belongs to the rapidfuzz library; the engine is stated
      for an arbitrary [ratio : string -> string -> Q] (every finite float
      is a rational, and Python compares a float with the integer 85
      exactly). *)

From Stdlib Require Import Ascii String QArith.
From stdpp Require Import gmap strings list fin_maps sorting.

#[local] Set Warnings "-clear-no-such-hyp".

Local Open Scope string_scope.
Local Open Scope nat_scope.
Local Open Scope list_scope.

(** ** Insertion-ordered dictionaries *)

Module Dict.
Section Ordered.
Context {V : Type}.

Definition t := list (string * V).

(** [{}] and [defaultdict(list)()] *)
Definition empty : t := [].

(** [d.get(k)] *)
Fixpoint lookup (k : string) (d : t) : option V :=
  match d with
  | [] => None
  | (k', v) :: d' => if decide (k = k') then Some v else lookup k d'
  end.

(** [list(d.keys())] *)
Definition keys (d : t) : list string := d.*1.

(** [list(d.values())] *)
Definition values (d : t) : list V := d.*2.

(** [d[k] = v]: an existing key keeps its position, a new key goes last. *)
Fixpoint set (k : string) (v : V) (d : t) : t :=
  match d with
  | [] => [(k, v)]
  | (k', v') :: d' =>
      if decide (k = k') then (k', v) :: d' else (k', v') :: set k v d'
  end.

(** [{k: v for k, v in d.items() if keep(v)}] *)
Definition comprehension (keep : V → bool) (d : t) : t :=
  foldl (λ acc kv, if keep kv.2 then set kv.1 kv.2 acc else acc) empty d.
End Ordered.

Arguments t : clear implicits.

Section ListValued.
Context {A : Type}.

(** [d[k].append(x)] on a [defaultdict(list)]: a missing key is created
    (last in iteration order) with the one-element list. *)
Fixpoint append (k : string) (x : A) (d : t (list A)) : t (list A) :=
  match d with
  | [] => [(k, [x])]
  | (k', v) :: d' =>
      if decide (k = k') then (k', v ++ [x]) :: d'
      else (k', v) :: append k x d'
  end.

(** [d[k]] on a [defaultdict(list)], read only where [k] is a key. *)
Definition get (k : string) (d : t (list A)) : list A :=
  default [] (lookup k d).

(** [len(v) > 1] *)
Definition more_than_one (v : list A) : bool := 1 <? length v.
End ListValued.
End Dict.

(** ** Data model (the pydantic classes) *)

(** One element of [fingerprints]: a JSON object with keys [type], [value]. *)
Abbreviation Fingerprint := (gmap string string).

(** One element of [Scene.files], a [Dict[str, Any]]: the engine reads the
    key [fingerprints] only; [None] is an absent key.  The other keys
    (size, basename, path, ...) are passed through uninterpreted. *)
Record File := {
  fingerprints : option (list Fingerprint);
  metadata : gmap string string
}.

Record Scene := {
  id : string;
  title : string;
  stash_ids : list (gmap string string);
  files : list File
}.

Record StashConfig := {
  stash_endpoint : string;
  api_key : option string
}.

Record StashResponse := {
  count : Z;
  scenes : list Scene
}.

Record HTTPException := {
  status_code : Z;
  detail : string
}.

Global Instance File_eq_dec : EqDecision File.
Proof. solve_decision. Defined.
Global Instance Scene_eq_dec : EqDecision Scene.
Proof. solve_decision. Defined.

(** Truth value of an optional string: [None] and [""] are falsy. *)
Definition truthy (o : option string) : bool :=
  match o with
  | Some s => if decide (s = "") then false else true
  | None => false
  end.

(** ** Identifier grouping *)

(** [[stash_id["stash_id"] for stash_id in scene.stash_ids
      if stash_id.get("stash_id")]] *)
Definition stash_id_values (scene : Scene) : list string :=
  (λ stash_id, default "" (stash_id !! "stash_id"))
    <$> filter (λ stash_id, truthy (stash_id !! "stash_id")) (stash_ids scene).

Definition stashid_groups (scenes : list Scene) : Dict.t (list Scene) :=
  foldl (λ groups scene,
           foldl (λ groups stash_id,
                    if truthy (Some stash_id)
                    then Dict.append stash_id scene groups
                    else groups)
                 groups (stash_id_values scene))
        Dict.empty scenes.

Definition find_duplicates_by_stashid (scenes : list Scene)
  : Dict.t (list Scene) :=
  Dict.comprehension Dict.more_than_one (stashid_groups scenes).

(** ** Fingerprint grouping

    [find_duplicates_by_oshash] and [find_duplicates_by_phash] are the same
    text up to the literal compared with [fingerprint.get("type")]; the
    accumulation loop is written once, for a fingerprint [kind]. *)

(** The body of the innermost loop, for [scene] and one fingerprint. *)
Definition fingerprint_step (kind : string) (scene : Scene)
    (groups : Dict.t (list Scene)) (fingerprint : Fingerprint)
  : Dict.t (list Scene) :=
  if decide (fingerprint !! "type" = Some kind) then
    let value := fingerprint !! "value" in
    if truthy value then Dict.append (default "" value) scene groups
    else groups
  else groups.

Definition fingerprint_groups (kind : string) (scenes : list Scene)
  : Dict.t (list Scene) :=
  foldl (λ groups scene,
           foldl (λ groups file,
                    foldl (fingerprint_step kind scene) groups
                          (default [] (fingerprints file)))
                 groups (files scene))
        Dict.empty scenes.

Definition find_duplicates_by_oshash (scenes : list Scene)
  : Dict.t (list Scene) :=
  Dict.comprehension Dict.more_than_one (fingerprint_groups "oshash" scenes).

Definition find_duplicates_by_phash (scenes : list Scene)
  : Dict.t (list Scene) :=
  Dict.comprehension Dict.more_than_one (fingerprint_groups "phash" scenes).

(** ** Title normalisation: [str.lower] and [str.strip]

    Both on code points below 256, where Python lowers [A-Z], [U+00C0-U+00D6]
    and [U+00D8-U+00DE] by adding 32, and where the white space characters
    are [U+0009-U+000D], [U+001C-U+0020], [U+0085] and [U+00A0]. *)

Definition lower_char (c : ascii) : ascii :=
  let n := nat_of_ascii c in
  if (65 <=? n) && (n <=? 90) || (192 <=? n) && (n <=? 214)
     || (216 <=? n) && (n <=? 222)
  then ascii_of_nat (n + 32) else c.

Fixpoint lower (s : string) : string :=
  match s with
  | EmptyString => EmptyString
  | String c s' => String (lower_char c) (lower s')
  end.

Definition isspace (c : ascii) : bool :=
  let n := nat_of_ascii c in
  (9 <=? n) && (n <=? 13) || (28 <=? n) && (n <=? 32)
  || (n =? 133) || (n =? 160).

Fixpoint lstrip (s : string) : string :=
  match s with
  | EmptyString => EmptyString
  | String c s' => if isspace c then lstrip s' else s
  end.

Definition rstrip (s : string) : string :=
  String.rev (lstrip (String.rev s)).

Definition strip (s : string) : string := rstrip (lstrip s).

(** ** Fuzzy name grouping *)

(** The first loop of [find_duplicates_by_name]. *)
Definition title_groups (scenes : list Scene) : Dict.t (list Scene) :=
  foldl (λ groups scene,
           if truthy (Some (title scene))
           then Dict.append (strip (lower (title scene))) scene groups
           else groups)
        Dict.empty scenes.

(** [enumerate(l)] *)
Definition enumerate {A : Type} (l : list A) : list (nat * A) := imap pair l.

(** The local variables of [find_duplicates_by_name] that the merge loops
    update, and [compared], the pairs [fuzz.ratio] was called with, in call
    order (a ghost variable: nothing reads it).  [group] is unbound until
    the first seed assigns it; it is the empty list until then. *)
Record Merge := {
  processed : gset string;
  fuzzy_groups : Dict.t (list Scene);
  group : list Scene;
  compared : list (string * string)
}.

Section Engine.
(** [fuzz.ratio] *)
Variable ratio : string → string → Q.

(** Body of the inner loop, [for j, title2 in enumerate(titles[i+1:], i+1)]. *)
Definition inner_body (groups : Dict.t (list Scene)) (title1 : string)
    (st : Merge) (title2 : string) : Merge :=
  if decide (title2 ∈ processed st) then st
  else
    let similarity := ratio title1 title2 in
    let log := compared st ++ [(title1, title2)] in
    if Qlt_le_dec 85 similarity then
      {| processed := {[title2]} ∪ processed st;
         fuzzy_groups := fuzzy_groups st;
         group := group st ++ Dict.get title2 groups;
         compared := log |}
    else
      {| processed := processed st;
         fuzzy_groups := fuzzy_groups st;
         group := group st;
         compared := log |}.

(** Body of the outer loop, [for i, title1 in enumerate(titles)]. *)
Definition outer_body (groups : Dict.t (list Scene)) (titles : list string)
    (st : Merge) (it : nat * string) : Merge :=
  let '(i, title1) := it in
  if decide (title1 ∈ processed st) then st
  else
    let seeded :=
      {| processed := processed st;
         fuzzy_groups := fuzzy_groups st;
         group := Dict.get title1 groups;
         compared := compared st |} in
    let scanned := foldl (inner_body groups title1) seeded
                         (drop (S i) titles) in
    {| processed := {[title1]} ∪ processed scanned;
       fuzzy_groups :=
         if Dict.more_than_one (group scanned)
         then Dict.set title1 (group scanned) (fuzzy_groups scanned)
         else fuzzy_groups scanned;
       group := group scanned;
       compared := compared scanned |}.

Definition merge_start : Merge :=
  {| processed := ∅; fuzzy_groups := Dict.empty; group := [];
     compared := [] |}.

(** The state after the first [n] iterations of the outer loop. *)
Definition merge_upto (n : nat) (scenes : list Scene) : Merge :=
  let groups := title_groups scenes in
  let titles := Dict.keys groups in
  foldl (outer_body groups titles) merge_start (take n (enumerate titles)).

(** The state when the outer loop has finished. *)
Definition merge_all (scenes : list Scene) : Merge :=
  let groups := title_groups scenes in
  let titles := Dict.keys groups in
  foldl (outer_body groups titles) merge_start (enumerate titles).

Definition find_duplicates_by_name (scenes : list Scene)
  : Dict.t (list Scene) :=
  fuzzy_groups (merge_all scenes).
End Engine.

(** ** The similarity ratio used in the examples

    rapidfuzz documents [fuzz.ratio] as the normalised Indel similarity
    scaled to [0, 100]: [100 * 2 * lcs / (len1 + len2)], where [lcs] is the
    length of a longest common subsequence, and 100 for two empty strings.
    The theorems hold for every ratio; the examples run with this one. *)

Fixpoint lcs_length (s1 : string) : string → nat :=
  match s1 with
  | EmptyString => λ _, 0
  | String c1 s1' =>
      fix scan (s2 : string) : nat :=
        match s2 with
        | EmptyString => 0
        | String c2 s2' =>
            if decide (c1 = c2) then S (lcs_length s1' s2')
            else lcs_length s1' s2 `max` scan s2'
        end
  end.

Definition indel_ratio (s1 s2 : string) : Q :=
  let n := String.length s1 + String.length s2 in
  if n =? 0 then 100%Q
  else Qmake (Z.of_nat (200 * lcs_length s1 s2)) (Pos.of_nat n).

(** ** Request handlers *)

(** What a handler hands back to the framework. *)
Inductive Response :=
| RedirectResponse (url : string) (status : Z)
| ErrorHtml (error_message : string) (config : StashConfig)
| IndexHtml (scene_count : Z) (scenes : list Scene) (config : StashConfig)
| DuplicatesHtml (duplicate_groups : Dict.t (list Scene))
    (method_name duplicate_type : string) (config : StashConfig)
    (total_duplicate_groups total_duplicate_scenes : nat).

(** What a handler reads from outside: the parsed content of [config.json]
    ([None] when the file does not exist) and the answer of the Stash server
    to the one query of [fetch_all_scenes], which either raises or returns. *)
Record World := {
  config_file : option StashConfig;
  upstream : StashConfig → HTTPException + StashResponse
}.

(** A handler run: the configurations [fetch_all_scenes] was called with, in
    call order, and how the handler ended ([inl]: it raised). *)
Record Run := {
  fetches : list StashConfig;
  outcome : HTTPException + Response
}.

Definition placeholder_endpoint : string := "http://localhost:9999/graphql".

Definition get_config (w : World) : StashConfig :=
  match config_file w with
  | None => {| stash_endpoint := placeholder_endpoint; api_key := Some "" |}
  | Some config => config
  end.

Definition root (w : World) : Run :=
  let config := get_config w in
  if negb (truthy (Some (stash_endpoint config)))
     || bool_decide (stash_endpoint config = placeholder_endpoint)
  then {| fetches := []; outcome := inr (RedirectResponse "/settings" 307) |}
  else
    match upstream w config with
    | inr stash_data =>
        {| fetches := [config];
           outcome := inr (IndexHtml (count stash_data) (scenes stash_data)
                                     config) |}
    | inl e =>
        {| fetches := [config];
           outcome := inr (ErrorHtml ("Error fetching data: " +:+ detail e)
                                     config) |}
    end.

Section Dispatch.
Variable ratio : string → string → Q.

(** [sum(len(scenes) for scenes in duplicate_groups.values())] *)
Definition total_scenes (duplicate_groups : Dict.t (list Scene)) : nat :=
  sum_list (length <$> Dict.values duplicate_groups).

Definition find_duplicates (duplicate_type : string) (w : World) : Run :=
  let config := get_config w in
  match upstream w config with
  | inl e =>
      {| fetches := [config];
         outcome := inr (ErrorHtml ("Error fetching data: " +:+ detail e)
                                   config) |}
  | inr stash_data =>
      let scenes := scenes stash_data in
      let chosen : HTTPException + (Dict.t (list Scene) * string) :=
        if decide (duplicate_type = "stashid") then
          inr (find_duplicates_by_stashid scenes, "Stash ID")
        else if decide (duplicate_type = "name") then
          inr (find_duplicates_by_name ratio scenes, "Name (Fuzzy Match)")
        else if decide (duplicate_type = "oshash") then
          inr (find_duplicates_by_oshash scenes, "OSHASH")
        else if decide (duplicate_type = "phash") then
          inr (find_duplicates_by_phash scenes, "PHASH")
        else
          inl {| status_code := 404;
                 detail := "Duplicate type not found" |} in
      {| fetches := [config];
         outcome :=
           match chosen with
           | inl e => inl e
           | inr (duplicate_groups, method_name) =>
               inr (DuplicatesHtml duplicate_groups method_name
                      duplicate_type config
                      (length duplicate_groups)
                      (total_scenes duplicate_groups))
           end |}
  end.
End Dispatch.

(** ** Auxiliary notions used in the statements *)

(** The [(key, scene)] pairs an accumulation loop appends, in append order,
    when each scene contributes the keys [keys_of scene]. *)
Definition entries_of (keys_of : Scene → list string) (scenes : list Scene)
  : list (string * Scene) :=
  flat_map (λ scene, (λ k, (k, scene)) <$> keys_of scene) scenes.

(** The scenes appended under key [k], in append order. *)
Definition select (k : string) (entries : list (string * Scene))
  : list Scene :=
  (filter (λ e, e.1 = k) entries).*2.

(** Appending a sequence of entries to a [defaultdict(list)]. *)
Definition collect (entries : list (string * Scene))
    (d : Dict.t (list Scene)) : Dict.t (list Scene) :=
  foldl (λ d e, Dict.append e.1 e.2 d) d entries.

(** The fingerprint values of [kind] a file carries, one per fingerprint
    entry, in order; entries without a value or with [""] are left out. *)
Definition file_values (kind : string) (file : File) : list string :=
  omap (λ fingerprint : Fingerprint,
          if decide (fingerprint !! "type" = Some kind)
          then if truthy (fingerprint !! "value")
               then fingerprint !! "value" else None
          else None)
       (default [] (fingerprints file)).

(** The same for a scene, in file order. *)
Definition fingerprint_values (kind : string) (scene : Scene) : list string :=
  flat_map (file_values kind) (files scene).

(** The fingerprint strategy that groups by [kind], if there is one. *)
Definition fingerprint_strategy (kind : string)
  : option (list Scene → Dict.t (list Scene)) :=
  if decide (kind = "oshash") then Some find_duplicates_by_oshash
  else if decide (kind = "phash") then Some find_duplicates_by_phash
  else None.

(** A fingerprint entry of [kind] with value [value]. *)
Definition carries (kind value : string) (fingerprint : Fingerprint) : Prop :=
  fingerprint !! "type" = Some kind ∧ fingerprint !! "value" = Some value.

Global Instance carries_dec kind value fingerprint :
  Decision (carries kind value fingerprint).
Proof. unfold carries. apply _. Defined.

(** An element of [stash_ids] whose identifier is [k]. *)
Definition names (k : string) (stash_id : gmap string string) : Prop :=
  stash_id !! "stash_id" = Some k.

Global Instance names_dec k stash_id : Decision (names k stash_id).
Proof. unfold names. apply _. Defined.

(** The key a scene is bucketed under by title, if any. *)
Definition title_keys (scene : Scene) : list string :=
  if truthy (Some (title scene)) then [strip (lower (title scene))] else [].

(** The stored configuration is absent, or its endpoint is the placeholder. *)
Definition unconfigured (w : World) : Prop :=
  config_file w = None
  ∨ ∃ config, config_file w = Some config
              ∧ stash_endpoint config = placeholder_endpoint.

(** A blank string: empty, or white space only. *)
Definition blank (s : string) : Prop := strip s = "".

(** How often [k] occurs in a list of keys. *)
Definition occurrences (k : string) (ks : list string) : nat :=
  length (filter (λ k', k' = k) ks).

(** [members] lists scenes of [scenes] in order of encounter: there are
    positions in [scenes], never decreasing, at which the members are found. *)
Definition encounter_ordered (scenes members : list Scene) : Prop :=
  ∃ positions : list nat,
    StronglySorted le positions ∧
    Forall2 (λ i member, scenes !! i = Some member) positions members.

Global Instance Qlt_dec (x y : Q) : Decision (x < y)%Q :=
  match Qlt_le_dec x y with
  | left H => left H
  | right H => right (Qle_not_lt _ _ H)
  end.

(** The later titles a scan seeded with [title1] merges, when [consumed] are
    the titles consumed before the scan. *)
Definition merged_titles (ratio : string → string → Q)
    (consumed : gset string) (title1 : string) (later : list string)
  : list string :=
  filter (λ title2, (title2 ∉ consumed) ∧ (85 < ratio title1 title2)%Q) later.

(** What further iterations of the outer loop leave untouched: consumed
    titles stay consumed, take part in no further comparison, and keep their
    entry of [fuzzy_groups]. *)
Definition extends (st st' : Merge) : Prop :=
  processed st ⊆ processed st'
  ∧ (∃ extra, compared st' = compared st ++ extra
              ∧ ∀ a b, (a, b) ∈ extra →
                       (a ∉ processed st) ∧ (b ∉ processed st))
  ∧ (∀ k, k ∈ processed st →
          Dict.lookup k (fuzzy_groups st')
          = Dict.lookup k (fuzzy_groups st)).

(** A group anchored at its seed: the bucket of its key, followed by the
    whole buckets of some titles first met after the key, in the order the
    titles were first met. *)
Definition seed_anchored (groups : Dict.t (list Scene))
    (titles : list string) (kv : string * list Scene) : Prop :=
  ∃ i merged,
    titles !! i = Some kv.1
    ∧ merged `sublist_of` drop (S i) titles
    ∧ kv.2 = Dict.get kv.1 groups
             ++ flat_map (λ t, Dict.get t groups) merged.

(** ** Configuration persistence and the settings form *)

(** [config.dict()]: the JSON object [save_config] writes. *)
Definition config_dict (config : StashConfig) : gmap string (option string) :=
  {[ "stash_endpoint" := Some (stash_endpoint config);
     "api_key" := api_key config ]}.

(** [StashConfig], built from the keys of [config_data] as keyword
    arguments, on a JSON object whose values are strings or [null]: [stash_endpoint] is required and must be a string, [api_key]
    defaults to [None], other keys are ignored.  [None] is a validation
    error. *)
Definition StashConfig_of_dict (config_data : gmap string (option string))
  : option StashConfig :=
  match config_data !! "stash_endpoint" with
  | Some (Some endpoint) =>
      Some {| stash_endpoint := endpoint;
              api_key := default None (config_data !! "api_key") |}
  | _ => None
  end.

(** [save_config]: afterwards [config.json] exists and holds [config]. *)
Definition save_config (config : StashConfig) (w : World) : World :=
  {| config_file := StashConfig_of_dict (config_dict config);
     upstream := upstream w |}.

(** The handler of [POST /settings]; an absent [api_key] field is [""]. *)
Definition update_settings (stash_endpoint api_key : string) (w : World)
  : World * Response :=
  let config :=
    {| stash_endpoint := stash_endpoint;
       api_key := if truthy (Some api_key) then Some api_key else None |} in
  (save_config config w, RedirectResponse "/" 303).

(** ** The catalog client *)

(** What [requests.post] is called with. *)
Record Request := {
  url : string;
  json_query : string;
  headers : Dict.t string
}.




Definition query : string := "
    query FindAllScenes {
      findScenes(
        filter: { per_page: -1 }
      ) {
        count
        scenes {
          id
          title
          stash_ids {
            stash_id
          }
          files {
            size
            basename
            path
            bit_rate
            height
            duration
            video_codec
            fingerprints{
              type
              value
            }
          }
        }
      }
    }
    ".

(** The first half of [fetch_all_scenes]: the request it posts. *)
Definition request_for (config : StashConfig) : Request :=
  let headers := Dict.set "Content-Type" "application/json" Dict.empty in
  let headers :=
    if truthy (api_key config)
    then Dict.set "ApiKey" (default "" (api_key config)) headers
    else headers in
  {| url := stash_endpoint config; json_query := query; headers := headers |}.



(** ** Example catalogs *)

Definition titled (i t : string) : Scene :=
  {| id := i; title := t; stash_ids := []; files := [] |}.

Definition vacation_2020 : Scene := titled "1" "Summer Vacation 2020".
Definition vacation_2021 : Scene := titled "2" "Summer Vacation 2021".
Definition vacation_2020_again : Scene := titled "3" " summer vacation 2020 ".
Definition apple : Scene := titled "4" "Apple".

Definition holiday_catalog : list Scene :=
  [vacation_2020; vacation_2021; vacation_2020_again; apple].

Definition fingerprint (kind value : string) : Fingerprint :=
  {[ "type" := kind; "value" := value ]}.

(** One scene, two files, the same content hash on both. *)
Definition two_copies : Scene :=
  {| id := "7"; title := "Two copies";
     stash_ids := [];
     files := [ {| fingerprints := Some [fingerprint "oshash" "xyz";
                                         fingerprint "phash" "p1"];
                   metadata := {[ "basename" := "a.mp4" ]} |};
                {| fingerprints := Some [fingerprint "oshash" "xyz";
                                         fingerprint "phash" "p2"];
                   metadata := {[ "basename" := "b.mp4" ]} |} ] |}.

(** Two scenes whose only identifier is one space. *)
Definition blank_id_left : Scene :=
  {| id := "9"; title := "Left";
     stash_ids := [ {[ "stash_id" := " " ]} ]; files := [] |}.
Definition blank_id_right : Scene :=
  {| id := "10"; title := "Right";
     stash_ids := [ {[ "stash_id" := " " ]} ]; files := [] |}.

(** Two scenes whose titles are white space only. *)
Definition blank_title_left : Scene := titled "11" " ".
Definition blank_title_right : Scene := titled "12" "   ".

(** A server with an empty catalog, and an installation configured for it. *)
Definition empty_catalog : StashConfig → HTTPException + StashResponse :=
  λ _, inr {| count := 0; scenes := [] |}.

Definition configured : World :=
  {| config_file := Some {| stash_endpoint := "http://stash:9999/graphql";
                            api_key := None |};
     upstream := empty_catalog |}.

(** An installation without [config.json], in front of the same server. *)
Definition fresh_install : World :=
  {| config_file := None; upstream := empty_catalog |}.

(** Five scenes: the second and the fourth share an identifier, the first
    and the third share a title up to case. *)
Definition small_catalog : list Scene :=
  [ {| id := "1"; title := "Midnight Run"; stash_ids := []; files := [] |};
    {| id := "2"; title := "Alpha";
       stash_ids := [ {[ "stash_id" := "st-99" ]} ]; files := [] |};
    {| id := "3"; title := "midnight run"; stash_ids := []; files := [] |};
    {| id := "4"; title := "Bravo";
       stash_ids := [ {[ "stash_id" := "st-99" ]}; {[ "stash_id" := "" ]} ];
       files := [ {| fingerprints := Some [fingerprint "oshash" "abc123"];
                     metadata := ∅ |} ] |};
    {| id := "5"; title := "Charlie"; stash_ids := [ ∅ ];
       files := [ {| fingerprints := None; metadata := ∅ |} ] |} ].

(** A server that cannot be reached, behind a configured endpoint. *)
Definition unreachable : World :=
  {| config_file := Some {| stash_endpoint := "http://stash:9999/graphql";
                            api_key := None |};
     upstream := λ _, inl {| status_code := 500;
                             detail := "Failed to connect to Stash: refused" |}
  |}.

(** Two scenes whose files share a perceptual hash. *)
Definition twin_left : Scene :=
  {| id := "13"; title := "Left twin"; stash_ids := [];
     files := [ {| fingerprints := Some [fingerprint "oshash" "o1";
                                         fingerprint "phash" "p9"];
                   metadata := ∅ |} ] |}.
Definition twin_right : Scene :=
  {| id := "14"; title := "Right twin"; stash_ids := [];
     files := [ {| fingerprints := Some [fingerprint "oshash" "o2";
                                         fingerprint "phash" "p9"];
                   metadata := ∅ |} ] |}.



(** One scene that lists the same identifier twice. *)
Definition listed_twice : Scene :=
  {| id := "8"; title := "Listed twice";
     stash_ids := [ {[ "stash_id" := "st-99" ]}; {[ "stash_id" := "st-99" ]} ];
     files := [] |}.

(** * Properties *)

(** ** Facts about insertion-ordered dictionaries *)

Section DictFacts.
Context {A : Type}.
Implicit Types (d : Dict.t (list A)) (k : string) (x : A).

Lemma lookup_None_keys {V} (d : Dict.t V) k :
  Dict.lookup k d = None ↔ k ∉ Dict.keys d.
Proof.
  induction d as [|[k' v] d IH]; simpl.
  - split; [intros _; apply not_elem_of_nil | done].
  - rewrite not_elem_of_cons. destruct (decide (k = k')) as [->|];
      [split; [done | intros []; done] | tauto].
Qed.

Lemma lookup_Some_keys {V} (d : Dict.t V) k v :
  Dict.lookup k d = Some v → k ∈ Dict.keys d.
Proof.
  intros H. destruct (decide (k ∈ Dict.keys d)) as [|Hn]; [done|].
  apply lookup_None_keys in Hn. congruence.
Qed.

Lemma lookup_Some_elem {V} (d : Dict.t V) k v :
  Dict.lookup k d = Some v → (k, v) ∈ d.
Proof.
  induction d as [|[k' v'] d IH]; simpl; [done|].
  destruct (decide (k = k')) as [->|]; intros H.
  - injection H as ->. left.
  - right. auto.
Qed.

Lemma lookup_append d k k' x :
  Dict.lookup k (Dict.append k' x d)
  = if decide (k = k') then Some (Dict.get k d ++ [x]) else Dict.lookup k d.
Proof.
  unfold Dict.get. induction d as [|[k0 v0] d IH]; simpl.
  - repeat case_decide; congruence.
  - destruct (decide (k' = k0)) as [->|]; simpl;
      destruct (decide (k = k0)) as [->|]; simpl; rewrite ?IH;
      repeat case_decide; congruence.
Qed.

Lemma keys_append d k x :
  Dict.keys (Dict.append k x d)
  = if decide (k ∈ Dict.keys d) then Dict.keys d else Dict.keys d ++ [k].
Proof.
  unfold Dict.keys. induction d as [|[k0 v0] d IH].
  - case_decide as H; [by apply elem_of_nil in H | done].
  - cbn [Dict.append]. rewrite !fmap_cons. cbn [fst].
    destruct (decide (k = k0)) as [->|Hne].
    + rewrite decide_True by left. done.
    + rewrite fmap_cons, IH. cbn [fst].
      repeat case_decide; try done; exfalso; set_solver.
Qed.

Lemma NoDup_keys_append d k x :
  NoDup (Dict.keys d) → NoDup (Dict.keys (Dict.append k x d)).
Proof.
  intros Hd. rewrite keys_append. case_decide; [done|].
  apply NoDup_app. split_and!; [done | | apply NoDup_singleton].
  intros y Hy ->%list_elem_of_singleton. done.
Qed.

Lemma lookup_set {V} (d : Dict.t V) k k' v :
  Dict.lookup k (Dict.set k' v d)
  = if decide (k = k') then Some v else Dict.lookup k d.
Proof.
  induction d as [|[k0 v0] d IH]; simpl.
  - repeat case_decide; congruence.
  - destruct (decide (k' = k0)) as [->|]; simpl;
      destruct (decide (k = k0)) as [->|]; simpl; rewrite ?IH;
      repeat case_decide; congruence.
Qed.

Lemma elem_of_set {V} (d : Dict.t V) k v kv :
  kv ∈ Dict.set k v d → kv = (k, v) ∨ kv ∈ d.
Proof.
  induction d as [|[k0 v0] d IH]; simpl.
  - intros ->%list_elem_of_singleton. by left.
  - destruct (decide (k = k0)) as [->|].
    + intros [->|H]%elem_of_cons; [by left | right; by right].
    + intros [->|H]%elem_of_cons; [right; left |].
      destruct (IH H) as [->|?]; [by left | right; by right].
Qed.

Lemma keys_set {V} (d : Dict.t V) k v :
  Dict.keys (Dict.set k v d)
  = if decide (k ∈ Dict.keys d) then Dict.keys d else Dict.keys d ++ [k].
Proof.
  unfold Dict.keys. induction d as [|[k0 v0] d IH].
  - case_decide as H; [by apply elem_of_nil in H | done].
  - cbn [Dict.set]. rewrite !fmap_cons. cbn [fst].
    destruct (decide (k = k0)) as [->|Hne].
    + rewrite decide_True by left. done.
    + rewrite fmap_cons, IH. cbn [fst].
      repeat case_decide; try done; exfalso; set_solver.
Qed.

(** Every value kept by a dict comprehension passes its test. *)
Lemma comprehension_keeps {V} (keep : V → bool) (d : Dict.t V) kv :
  kv ∈ Dict.comprehension keep d → keep kv.2 = true.
Proof.
  unfold Dict.comprehension.
  assert (∀ acc, (∀ e, e ∈ acc → keep e.2 = true) →
            ∀ e, e ∈ foldl (λ acc kv, if keep kv.2
                                       then Dict.set kv.1 kv.2 acc
                                       else acc) acc d
                 → keep e.2 = true) as Hgen.
  { induction d as [|[k v] d IH]; intros acc Hacc e; simpl; [apply Hacc|].
    apply IH. intros e'. destruct (keep v) eqn:Hk; [|apply Hacc].
    intros [->|?]%elem_of_set; [done | by apply Hacc]. }
  apply Hgen. intros e []%elem_of_nil.
Qed.

(** With distinct keys, a comprehension is looked up through its source. *)
Lemma lookup_comprehension {V} (keep : V → bool) (d : Dict.t V) k :
  NoDup (Dict.keys d) →
  Dict.lookup k (Dict.comprehension keep d)
  = match Dict.lookup k d with
    | Some v => if keep v then Some v else None
    | None => None
    end.
Proof.
  unfold Dict.comprehension.
  assert (∀ acc, NoDup (Dict.keys d) →
            Dict.lookup k (foldl (λ acc kv, if keep kv.2
                                             then Dict.set kv.1 kv.2 acc
                                             else acc) acc d)
            = match Dict.lookup k d with
              | Some v => if keep v then Some v else Dict.lookup k acc
              | None => Dict.lookup k acc
              end) as Hgen.
  { induction d as [|[k' v] d IH]; intros acc Hnd; simpl; [done|].
    apply NoDup_cons in Hnd as [Hk' Hnd]. rewrite IH by done.
    cbn [fst snd] in *.
    destruct (decide (k = k')) as [->|Hne].
    - apply lookup_None_keys in Hk'. rewrite Hk'.
      destruct (keep v); [|done]. simpl. rewrite lookup_set.
      by rewrite decide_True.
    - destruct (Dict.lookup k d) as [v'|]; [destruct (keep v'); [done|]|];
        (destruct (keep v); [simpl; rewrite lookup_set;
                             by rewrite decide_False | done]). }
  intros Hnd. rewrite Hgen by done. simpl.
  destruct (Dict.lookup k d) as [v|]; [by destruct (keep v) | done].
Qed.
End DictFacts.

(** ** Accumulation loops as collected entries *)

Section Collect.
Implicit Types (d : Dict.t (list Scene)) (k : string).
Implicit Types (es : list (string * Scene)) (scenes : list Scene).

Lemma collect_app es1 es2 d :
  collect (es1 ++ es2) d = collect es2 (collect es1 d).
Proof. apply foldl_app. Qed.

Lemma select_cons k e es :
  select k (e :: es) = if decide (e.1 = k) then e.2 :: select k es
                       else select k es.
Proof. unfold select. rewrite filter_cons. by case_decide. Qed.

Lemma select_app k es1 es2 :
  select k (es1 ++ es2) = select k es1 ++ select k es2.
Proof. unfold select. by rewrite filter_app, fmap_app. Qed.

Lemma select_keyed k (s : Scene) (ks : list string) :
  select k ((λ k', (k', s)) <$> ks) = replicate (occurrences k ks) s.
Proof.
  unfold occurrences. induction ks as [|k' ks IH]; [done|].
  rewrite fmap_cons, select_cons, filter_cons. cbn [fst snd].
  case_decide; [cbn; by rewrite IH | done].
Qed.

Lemma select_entries_of k keys_of scenes :
  select k (entries_of keys_of scenes)
  = flat_map (λ s, replicate (occurrences k (keys_of s)) s) scenes.
Proof.
  unfold entries_of. induction scenes as [|s scenes IH]; [done|].
  cbn [flat_map]. by rewrite select_app, select_keyed, IH.
Qed.

Lemma lookup_collect es d k :
  Dict.lookup k (collect es d)
  = match Dict.lookup k d, select k es with
    | Some v, sel => Some (v ++ sel)
    | None, [] => None
    | None, sel => Some sel
    end.
Proof.
  revert d. induction es as [|[k' s] es IH]; intros d.
  - cbn. destruct (Dict.lookup k d); [by rewrite app_nil_r | done].
  - change (collect ((k', s) :: es) d)
      with (collect es (Dict.append k' s d)).
    rewrite IH, lookup_append, select_cons. cbn [fst snd].
    unfold Dict.get. destruct (decide (k = k')) as [->|Hne].
    + rewrite decide_True by done.
      destruct (Dict.lookup k' d); cbn; [by rewrite <- app_assoc | done].
    + rewrite decide_False by done. done.
Qed.

Lemma lookup_collect_empty es k v :
  Dict.lookup k (collect es Dict.empty) = Some v
  ↔ v = select k es ∧ v ≠ [].
Proof.
  rewrite lookup_collect. cbn.
  destruct (select k es); naive_solver.
Qed.

Lemma get_collect_empty es k :
  Dict.get k (collect es Dict.empty) = select k es.
Proof.
  unfold Dict.get. rewrite lookup_collect. cbn. by destruct (select k es).
Qed.

Lemma NoDup_keys_collect es d :
  NoDup (Dict.keys d) → NoDup (Dict.keys (collect es d)).
Proof.
  revert d. induction es as [|e es IH]; intros d Hd; [done|].
  apply (IH (Dict.append e.1 e.2 d)). by apply NoDup_keys_append.
Qed.

Lemma elem_of_keys_collect es k :
  k ∈ Dict.keys (collect es Dict.empty) ↔ k ∈ es.*1.
Proof.
  split.
  - intros Hk. destruct (Dict.lookup k (collect es Dict.empty)) as [v|] eqn:E.
    + apply lookup_collect_empty in E as [-> Hne].
      destruct (select k es) as [|s l] eqn:Es; [done|].
      assert (s ∈ select k es) as Hs by (rewrite Es; left).
      unfold select in Hs. apply list_elem_of_fmap in Hs as ([k' s'] & -> & He).
      apply list_elem_of_filter in He as [Hk' He]. cbn in Hk'. subst k'.
      apply list_elem_of_fmap. by exists (k, s').
    + by apply lookup_None_keys in E.
  - intros ([k' s] & -> & He)%list_elem_of_fmap. cbn.
    destruct (Dict.lookup k' (collect es Dict.empty)) as [v|] eqn:E.
    + by apply lookup_Some_keys in E.
    + exfalso. rewrite lookup_collect in E. cbn in E.
      assert (s ∈ select k' es) as Hs.
      { unfold select. apply list_elem_of_fmap. exists (k', s). split; [done|].
        by apply list_elem_of_filter. }
      destruct (select k' es); [by apply elem_of_nil in Hs | done].
Qed.

(** A loop whose body appends the scene once per key of [keys_of]. *)
Lemma foldl_collect keys_of
    (body : Dict.t (list Scene) → Scene → Dict.t (list Scene)) scenes d :
  (∀ d s, body d s = collect ((λ k, (k, s)) <$> keys_of s) d) →
  foldl body d scenes = collect (entries_of keys_of scenes) d.
Proof.
  intros Hbody. revert d. induction scenes as [|s scenes IH]; intros d;
    [done|].
  cbn [foldl]. rewrite IH, Hbody. unfold entries_of. cbn [flat_map].
  by rewrite collect_app.
Qed.

Lemma stash_id_values_nonempty scene k :
  k ∈ stash_id_values scene → k ≠ "".
Proof.
  unfold stash_id_values.
  intros (m & -> & Hm)%list_elem_of_fmap.
  apply list_elem_of_filter in Hm as [Hm _].
  destruct (m !! "stash_id") as [v|]; cbn in *; [|done].
  by case_decide.
Qed.

Lemma stashid_groups_collect scenes :
  stashid_groups scenes
  = collect (entries_of stash_id_values scenes) Dict.empty.
Proof.
  apply foldl_collect. intros d s.
  pose proof (stash_id_values_nonempty s) as Hne. revert d Hne.
  induction (stash_id_values s) as [|k ks IH]; intros d Hne; [done|].
  cbn [foldl fmap list_fmap].
  assert (truthy (Some k) = true) as ->.
  { cbn. rewrite decide_False; [done | apply Hne; left]. }
  rewrite IH; [done | intros k' Hk'; apply Hne; by right].
Qed.

Lemma fingerprint_groups_collect kind scenes :
  fingerprint_groups kind scenes
  = collect (entries_of (fingerprint_values kind) scenes) Dict.empty.
Proof.
  apply foldl_collect. intros d s. unfold fingerprint_values, file_values.
  revert d. induction (files s) as [|file fs IH]; intros d; [done|].
  cbn [foldl flat_map]. rewrite fmap_app, collect_app, IH. f_equal.
  generalize (default [] (fingerprints file)). intros fps. revert d.
  induction fps as [|fp fps IHf]; intros d; [done|].
  cbn [foldl omap list_omap]. rewrite IHf. unfold fingerprint_step.
  destruct (decide (fp !! "type" = Some kind)); [|done].
  destruct (fp !! "value") as [v|] eqn:Ev; cbn; [|done].
  destruct (decide (v = "")); done.
Qed.

Lemma title_groups_collect scenes :
  title_groups scenes = collect (entries_of title_keys scenes) Dict.empty.
Proof.
  apply foldl_collect. intros d s. unfold title_keys.
  by destruct (truthy (Some (title s))).
Qed.
End Collect.

(** ** The merge loops of the fuzzy name strategy *)

Lemma NoDup_drop {A} (l : list A) n : NoDup l → NoDup (drop n l).
Proof. intros H. eapply sublist_NoDup; [done | apply sublist_drop]. Qed.

Lemma elem_of_drop_1 {A} (l : list A) n x : x ∈ drop n l → x ∈ l.
Proof.
  intros H. rewrite <- (take_drop n l). apply elem_of_app. by right.
Qed.

Lemma filter_ext_elem {A} (P Q : A → Prop) `{!∀ x, Decision (P x)}
    `{!∀ x, Decision (Q x)} (l : list A) :
  (∀ x, x ∈ l → P x ↔ Q x) → filter P l = filter Q l.
Proof.
  induction l as [|a l IH]; intros Hext; [done|].
  rewrite !filter_cons. rewrite IH by (intros x Hx; apply Hext; by right).
  apply decide_ext, Hext. left.
Qed.

Section MergeFacts.
Variable ratio : string → string → Q.
Variable groups : Dict.t (list Scene).
Implicit Types (st : Merge) (rest titles : list string).

(** The inner loop in closed form: over distinct later titles, it merges
    exactly the titles that were not consumed when it started and whose
    ratio with the seed exceeds 85, and it compares the seed with every
    title that was not consumed when it started. *)
Lemma scan_closed title1 rest st :
  NoDup rest →
  foldl (inner_body ratio groups title1) st rest
  = {| processed :=
         list_to_set (merged_titles ratio (processed st) title1 rest)
         ∪ processed st;
       fuzzy_groups := fuzzy_groups st;
       group := group st
                ++ flat_map (λ t, Dict.get t groups)
                     (merged_titles ratio (processed st) title1 rest);
       compared := compared st
                   ++ ((λ t2, (title1, t2))
                         <$> filter (λ t2, t2 ∉ processed st) rest) |}.
Proof.
  revert st. induction rest as [|t2 rest IH]; intros st Hnd.
  - destruct st. cbn. rewrite !app_nil_r. f_equal. set_solver.
  - apply NoDup_cons in Hnd as [Ht2 Hnd]. cbn [foldl].
    rewrite IH by done. unfold inner_body, merged_titles.
    rewrite !filter_cons.
    destruct (decide (t2 ∈ processed st)) as [Hin|Hin].
    + rewrite decide_False by tauto. rewrite decide_False by tauto. done.
    + rewrite (decide_True (P := t2 ∉ processed st)) by done.
      destruct (Qlt_le_dec 85 (ratio title1 t2)) as [Hlt|Hle].
      * rewrite decide_True by done. cbn [processed fuzzy_groups group
                                            compared].
        assert (filter (λ title2, (title2 ∉ {[t2]} ∪ processed st)
                                  ∧ (85 < ratio title1 title2)%Q) rest
                = filter (λ title2, (title2 ∉ processed st)
                                    ∧ (85 < ratio title1 title2)%Q) rest)
          as ->.
        { apply filter_ext_elem. intros x Hx.
          assert (x ≠ t2) by (intros ->; done). set_solver. }
        assert (filter (λ t, t ∉ {[t2]} ∪ processed st) rest
                = filter (λ t, t ∉ processed st) rest) as ->.
        { apply filter_ext_elem. intros x Hx.
          assert (x ≠ t2) by (intros ->; done). set_solver. }
        cbn [flat_map fmap list_fmap list_to_set foldr].
        rewrite <- !app_assoc. f_equal. set_solver.
      * rewrite decide_False
          by (intros [_ Hlt]; by apply Qle_not_lt in Hle).
        cbn [processed fuzzy_groups group compared fmap list_fmap].
        by rewrite <- app_assoc.
Qed.

(** One iteration of the outer loop on a title that is not consumed. *)
Lemma outer_body_seed titles i title1 st :
  NoDup titles → title1 ∉ processed st →
  let merged := merged_titles ratio (processed st) title1
                  (drop (S i) titles) in
  let members := Dict.get title1 groups
                 ++ flat_map (λ t, Dict.get t groups) merged in
  outer_body ratio groups titles st (i, title1)
  = {| processed := {[title1]} ∪ (list_to_set merged ∪ processed st);
       fuzzy_groups := if Dict.more_than_one members
                       then Dict.set title1 members (fuzzy_groups st)
                       else fuzzy_groups st;
       group := members;
       compared := compared st
                   ++ ((λ t2, (title1, t2))
                         <$> filter (λ t2, t2 ∉ processed st)
                                    (drop (S i) titles)) |}.
Proof.
  intros Hnd Hseed merged members. unfold outer_body.
  rewrite decide_False by done.
  rewrite scan_closed by (by apply NoDup_drop). done.
Qed.

Lemma outer_body_skip titles i title1 st :
  title1 ∈ processed st →
  outer_body ratio groups titles st (i, title1) = st.
Proof. intros H. unfold outer_body. by rewrite decide_True. Qed.
End MergeFacts.

(** ** Order of encounter *)

Section EncounterOrder.
Implicit Types (scenes members : list Scene).

Lemma encounter_ordered_nil scenes : encounter_ordered scenes [].
Proof. exists []. split; constructor. Qed.

(** Members found at the head of the list, any number of times, may
    precede members found in the tail. *)
Lemma encounter_ordered_cons s n scenes members :
  encounter_ordered scenes members →
  encounter_ordered (s :: scenes) (replicate n s ++ members).
Proof.
  intros (positions & Hsorted & Hfound).
  exists (replicate n 0 ++ (S <$> positions)). split.
  - apply StronglySorted_app_2.
    + intros x1 x2 [-> _]%elem_of_replicate _. lia.
    + induction n; cbn; constructor; [done|].
      apply Forall_forall. intros x [-> _]%elem_of_replicate. done.
    + eapply StronglySorted_fmap; [|done]. intros; lia.
  - apply Forall2_app.
    + by apply Forall2_replicate.
    + apply Forall2_fmap_l. eapply Forall2_impl; [done|]. by intros.
Qed.

Lemma encounter_ordered_bucket (n : Scene → nat) scenes :
  encounter_ordered scenes (flat_map (λ s, replicate (n s) s) scenes).
Proof.
  induction scenes as [|s scenes IH]; [apply encounter_ordered_nil|].
  cbn [flat_map]. by apply encounter_ordered_cons.
Qed.

Lemma encounter_ordered_select k keys_of scenes :
  encounter_ordered scenes (select k (entries_of keys_of scenes)).
Proof. rewrite select_entries_of. apply encounter_ordered_bucket. Qed.
End EncounterOrder.

(** ** Returned groups of the bucket strategies *)

Section Returned.
Implicit Types (d : Dict.t (list Scene)) (k : string) (g : list Scene).

Lemma NoDup_lookup_elem {V} (d : Dict.t V) k (v : V) :
  NoDup (Dict.keys d) → (k, v) ∈ d → Dict.lookup k d = Some v.
Proof.
  induction d as [|[k' v'] d IH]; intros Hnd Hin;
    [by apply elem_of_nil in Hin|].
  unfold Dict.keys in Hnd. rewrite fmap_cons in Hnd.
  apply NoDup_cons in Hnd as [Hk' Hnd]. cbn.
  apply elem_of_cons in Hin as [[= -> ->]|Hin].
  - by rewrite decide_True.
  - rewrite decide_False; [by apply IH|].
    intros ->. apply Hk'. apply list_elem_of_fmap. by exists (k', v).
Qed.

Lemma comprehension_elem {V} (keep : V → bool) (d : Dict.t V) kv :
  kv ∈ Dict.comprehension keep d → kv ∈ d.
Proof.
  unfold Dict.comprehension.
  assert (∀ acc e, e ∈ foldl (λ acc kv, if keep kv.2
                                         then Dict.set kv.1 kv.2 acc
                                         else acc) acc d
                   → e ∈ acc ∨ e ∈ d) as Hgen.
  { induction d as [|[k v] d IH]; intros acc e; cbn [foldl]; [by left|].
    intros [Hacc|Hd]%IH; [|right; by right]. cbn [fst snd] in Hacc.
    destruct (keep v); [|by left].
    apply elem_of_set in Hacc as [->|?]; [right; left | by left]. }
  intros [[]%elem_of_nil|?]%Hgen. done.
Qed.

(** The groups a bucket strategy returns: the scenes appended under the
    key, provided there are at least two. *)
Lemma returned_bucket es k g :
  (k, g) ∈ Dict.comprehension Dict.more_than_one (collect es Dict.empty)
  ↔ g = select k es ∧ 2 ≤ length g.
Proof.
  pose proof (NoDup_keys_collect es Dict.empty (NoDup_nil_2)) as Hnd.
  split.
  - intros Hin. pose proof (comprehension_keeps _ _ _ Hin) as Hkeep.
    apply comprehension_elem, (NoDup_lookup_elem _ _ _ Hnd) in Hin.
    apply lookup_collect_empty in Hin as [-> _]. split; [done|].
    cbn [snd] in Hkeep. unfold Dict.more_than_one in Hkeep.
    apply Nat.ltb_lt in Hkeep. lia.
  - intros [-> Hlen]. apply lookup_Some_elem.
    rewrite lookup_comprehension by done.
    assert (Dict.lookup k (collect es Dict.empty) = Some (select k es))
      as ->.
    { apply lookup_collect_empty. split; [done|].
      intros E. rewrite E in Hlen. cbn in Hlen. lia. }
    unfold Dict.more_than_one.
    destruct (1 <? length (select k es)) eqn:E; [done|].
    apply Nat.ltb_ge in E. lia.
Qed.

Lemma lookup_returned_bucket es k :
  Dict.lookup k
    (Dict.comprehension Dict.more_than_one (collect es Dict.empty))
  = if decide (2 ≤ length (select k es)) then Some (select k es) else None.
Proof.
  pose proof (NoDup_keys_collect es Dict.empty (NoDup_nil_2)) as Hnd.
  rewrite lookup_comprehension by done. rewrite lookup_collect. cbn.
  unfold Dict.more_than_one.
  destruct (select k es) as [|s [|s' l]]; cbn; case_decide; try done; lia.
Qed.
End Returned.

(** ** The outer loop, iteration after iteration *)

Lemma foldl_invariant {A B} (P : A → Prop) (f : A → B → A) l a :
  P a → (∀ a b, b ∈ l → P a → P (f a b)) → P (foldl f a l).
Proof.
  revert a. induction l as [|b l IH]; intros a Ha Hstep; [done|].
  cbn [foldl]. apply IH.
  - apply Hstep; [left | done].
  - intros a' b' Hb'. apply Hstep. by right.
Qed.

Lemma lookup_enumerate {A} (l : list A) i it :
  enumerate l !! i = Some it ↔ ∃ x, it = (i, x) ∧ l !! i = Some x.
Proof.
  unfold enumerate. rewrite list_lookup_imap.
  destruct (l !! i); cbn; naive_solver.
Qed.

Lemma elem_of_enumerate {A} (l : list A) i x :
  (i, x) ∈ enumerate l ↔ l !! i = Some x.
Proof.
  rewrite list_elem_of_lookup. split.
  - intros (j & (y & [= -> ->] & Hy)%lookup_enumerate). done.
  - intros H. exists i. apply lookup_enumerate. eauto.
Qed.

Section MergeRun.
Variable ratio : string → string → Q.
Variable groups : Dict.t (list Scene).
Variable titles : list string.
Hypothesis titles_distinct : NoDup titles.

Local Abbreviation step := (outer_body ratio groups titles).

Lemma extends_refl st : extends st st.
Proof.
  split_and!; [done | | done].
  exists []. split; [by rewrite app_nil_r | by intros a b ?%elem_of_nil].
Qed.

Lemma extends_trans st1 st2 st3 :
  extends st1 st2 → extends st2 st3 → extends st1 st3.
Proof.
  intros (Hp1 & (e1 & Hc1 & He1) & Hl1) (Hp2 & (e2 & Hc2 & He2) & Hl2).
  split_and!.
  - set_solver.
  - exists (e1 ++ e2). split; [by rewrite Hc2, Hc1, app_assoc|].
    intros a b [?|Hin]%elem_of_app; [by apply He1|].
    apply He2 in Hin. set_solver.
  - intros k Hk. rewrite Hl2 by set_solver. by apply Hl1.
Qed.

Lemma extends_step st it : extends st (step st it).
Proof.
  destruct it as [i t].
  destruct (decide (t ∈ processed st)) as [Hin|Hin].
  { rewrite outer_body_skip by done. apply extends_refl. }
  rewrite outer_body_seed by done. split_and!; cbn.
  - set_solver.
  - eexists. split; [done|].
    intros a b (t2 & [= -> ->] & Ht2)%list_elem_of_fmap.
    by apply list_elem_of_filter in Ht2 as [? _].
  - intros k Hk. case_match; [|done].
    rewrite lookup_set. rewrite decide_False; [done | by intros ->].
Qed.

Lemma extends_run st its : extends st (foldl step st its).
Proof.
  revert st. induction its as [|it its IH]; intros st;
    [apply extends_refl|].
  cbn [foldl]. eapply extends_trans; [apply extends_step | apply IH].
Qed.

(** Every key of [fuzzy_groups] is a consumed title. *)
Lemma keys_consumed_step st it :
  (∀ k, k ∈ Dict.keys (fuzzy_groups st) → k ∈ processed st) →
  ∀ k, k ∈ Dict.keys (fuzzy_groups (step st it)) →
       k ∈ processed (step st it).
Proof.
  intros Hinv k. destruct it as [i t].
  destruct (decide (t ∈ processed st)) as [Hin|Hin].
  { rewrite outer_body_skip by done. apply Hinv. }
  rewrite outer_body_seed by done. cbn [fuzzy_groups processed]. case_match.
  - rewrite keys_set. case_decide.
    + intros ?%Hinv. set_solver.
    + intros [?%Hinv| ->%list_elem_of_singleton]%elem_of_app; set_solver.
  - intros ?%Hinv. set_solver.
Qed.

(** Every entry of [fuzzy_groups] has at least two members. *)
Lemma two_members_step st it :
  (∀ kv, kv ∈ fuzzy_groups st → 2 ≤ length kv.2) →
  ∀ kv, kv ∈ fuzzy_groups (step st it) → 2 ≤ length kv.2.
Proof.
  intros Hinv kv. destruct it as [i t].
  destruct (decide (t ∈ processed st)) as [Hin|Hin].
  { rewrite outer_body_skip by done. apply Hinv. }
  rewrite outer_body_seed by done. cbn [fuzzy_groups].
  case_match eqn:E; [|apply Hinv].
  intros [->|?]%elem_of_set; [|by apply Hinv].
  cbn [snd]. unfold Dict.more_than_one in E. apply Nat.ltb_lt in E. lia.
Qed.

(** Every entry of [fuzzy_groups] is seed-anchored. *)
Lemma seed_anchored_step st it :
  it ∈ enumerate titles →
  (∀ kv, kv ∈ fuzzy_groups st → seed_anchored groups titles kv) →
  ∀ kv, kv ∈ fuzzy_groups (step st it) → seed_anchored groups titles kv.
Proof.
  intros Hit Hinv kv. destruct it as [i t].
  apply elem_of_enumerate in Hit.
  destruct (decide (t ∈ processed st)) as [Hin|Hin].
  { rewrite outer_body_skip by done. apply Hinv. }
  rewrite outer_body_seed by done. cbn.
  case_match; [|apply Hinv].
  intros [->|?]%elem_of_set; [|by apply Hinv].
  exists i, (merged_titles ratio (processed st) t (drop (S i) titles)).
  split_and!; [done | apply sublist_filter | done].
Qed.

(** Only titles are compared. *)
Lemma compared_titles_step st it :
  it ∈ enumerate titles →
  (∀ a b, (a, b) ∈ compared st → a ∈ titles ∧ b ∈ titles) →
  ∀ a b, (a, b) ∈ compared (step st it) → a ∈ titles ∧ b ∈ titles.
Proof.
  intros Hit Hinv a b. destruct it as [i t].
  apply elem_of_enumerate in Hit.
  destruct (decide (t ∈ processed st)) as [Hin|Hin].
  { rewrite outer_body_skip by done. apply Hinv. }
  rewrite outer_body_seed by done. cbn.
  intros [?|(t2 & [= -> ->] & Ht2)%list_elem_of_fmap]%elem_of_app;
    [by apply Hinv|].
  split; [by eapply list_elem_of_lookup_2|].
  apply list_elem_of_filter in Ht2 as [_ Ht2].
  by eapply elem_of_drop_1.
Qed.
End MergeRun.

(** ** The fuzzy name strategy as a whole *)

Section Titles.
Implicit Types (scenes : list Scene).

Lemma titles_distinct scenes : NoDup (Dict.keys (title_groups scenes)).
Proof.
  rewrite title_groups_collect. apply NoDup_keys_collect, NoDup_nil_2.
Qed.

(** The bucket of a normalised title: the scenes with a non-empty title
    that normalises to it, in list order. *)
Lemma title_bucket scenes t :
  Dict.get t (title_groups scenes)
  = filter (λ s, title s ≠ "" ∧ strip (lower (title s)) = t) scenes.
Proof.
  rewrite title_groups_collect, get_collect_empty, select_entries_of.
  induction scenes as [|s scenes IH]; [done|].
  cbn [flat_map]. rewrite filter_cons, IH. unfold title_keys, occurrences.
  cbn [truthy]. destruct (decide (title s = "")) as [E|E].
  - cbn. rewrite decide_False by tauto. done.
  - rewrite filter_cons, filter_nil.
    destruct (decide (strip (lower (title s)) = t)).
    + rewrite decide_True by done. done.
    + rewrite decide_False by tauto. done.
Qed.

Lemma titles_spec scenes t :
  t ∈ Dict.keys (title_groups scenes)
  ↔ ∃ s, s ∈ scenes ∧ title s ≠ "" ∧ strip (lower (title s)) = t.
Proof.
  rewrite title_groups_collect, elem_of_keys_collect.
  unfold entries_of. rewrite list_elem_of_fmap. split.
  - intros ([k s] & -> & (s' & Hs' & Hk)%list_elem_of_In%in_flat_map).
    apply list_elem_of_In in Hs'. apply list_elem_of_In in Hk.
    apply list_elem_of_fmap in Hk as (k' & [= -> ->] & Hk').
    exists s'. split; [done|]. unfold title_keys in Hk'. cbn in Hk'.
    destruct (decide (title s' = "")); [by apply elem_of_nil in Hk'|].
    apply list_elem_of_singleton in Hk'. done.
  - intros (s & Hs & Hne & <-). exists (strip (lower (title s)), s).
    split; [done|]. apply list_elem_of_In, in_flat_map. exists s.
    split; [by apply list_elem_of_In|]. apply list_elem_of_In.
    apply list_elem_of_fmap. exists (strip (lower (title s))).
    split; [done|]. unfold title_keys. cbn.
    rewrite decide_False by done. left.
Qed.
End Titles.

Section NameRun.
Variable ratio : string → string → Q.
Implicit Types (scenes : list Scene).

Lemma merge_upto_S scenes i title1 :
  Dict.keys (title_groups scenes) !! i = Some title1 →
  merge_upto ratio (S i) scenes
  = outer_body ratio (title_groups scenes) (Dict.keys (title_groups scenes))
      (merge_upto ratio i scenes) (i, title1).
Proof.
  intros Hi. unfold merge_upto.
  erewrite take_S_r by (apply lookup_enumerate; eauto).
  by rewrite foldl_app.
Qed.

Lemma merge_upto_from scenes n m :
  n ≤ m →
  merge_upto ratio m scenes
  = foldl (outer_body ratio (title_groups scenes)
             (Dict.keys (title_groups scenes)))
          (merge_upto ratio n scenes)
          (drop n (take m (enumerate (Dict.keys (title_groups scenes))))).
Proof.
  intros Hnm. unfold merge_upto. rewrite <- foldl_app.
  rewrite <- (take_drop n (take m _)) at 1.
  rewrite take_take. by replace (n `min` m) with n by lia.
Qed.

Lemma merge_all_from scenes n :
  merge_all ratio scenes
  = foldl (outer_body ratio (title_groups scenes)
             (Dict.keys (title_groups scenes)))
          (merge_upto ratio n scenes)
          (drop n (enumerate (Dict.keys (title_groups scenes)))).
Proof.
  unfold merge_all, merge_upto. rewrite <- foldl_app.
  by rewrite take_drop.
Qed.

Lemma extends_upto scenes n m :
  n ≤ m → extends (merge_upto ratio n scenes) (merge_upto ratio m scenes).
Proof.
  intros Hnm. rewrite (merge_upto_from scenes n m) by done.
  apply extends_run, titles_distinct.
Qed.

Lemma extends_all scenes n :
  extends (merge_upto ratio n scenes) (merge_all ratio scenes).
Proof.
  rewrite (merge_all_from scenes n). apply extends_run, titles_distinct.
Qed.

Lemma keys_consumed_upto scenes n k :
  k ∈ Dict.keys (fuzzy_groups (merge_upto ratio n scenes)) →
  k ∈ processed (merge_upto ratio n scenes).
Proof.
  revert k. unfold merge_upto.
  apply (foldl_invariant
           (λ st, ∀ k, k ∈ Dict.keys (fuzzy_groups st) → k ∈ processed st)).
  - intros k []%elem_of_nil.
  - intros st it _ Hinv.
    apply keys_consumed_step; [apply titles_distinct | done].
Qed.

End NameRun.

(** * Worked examples *)

Example great_escape_normalises :
  strip (lower "The Great Escape") = "the great escape"
  ∧ strip (lower "the great escape ") = "the great escape".
Proof. split; reflexivity. Qed.

Example vacations_are_similar :
  (85 < indel_ratio "summer vacation 2020" "summer vacation 2021")%Q.
Proof. reflexivity. Qed.

Example apple_and_orange_are_not :
  ¬ (85 < indel_ratio "apple" "orange")%Q.
Proof. vm_compute. discriminate. Qed.

Example small_catalog_groups :
  Dict.keys (find_duplicates_by_stashid small_catalog) = ["st-99"]
  ∧ length <$> Dict.values (find_duplicates_by_stashid small_catalog) = [2]
  ∧ Dict.keys (find_duplicates_by_name indel_ratio small_catalog)
    = ["midnight run"]
  ∧ length <$> Dict.values (find_duplicates_by_name indel_ratio small_catalog)
    = [2]
  ∧ find_duplicates_by_oshash small_catalog = []
  ∧ find_duplicates_by_phash small_catalog = [].
Proof. vm_compute. done. Qed.

(** * The claims *)

(** C1.  Fuzzy name grouping merges exactly above the threshold.  Let
    [title1] be the title at position [i] of the first-encounter order, not
    consumed when the outer loop reaches it.  Then, for every later title
    [title2] that was not consumed at that moment, the whole bucket of
    [title2] is appended to the group of [title1] if and only if
    [ratio title1 title2] strictly exceeds 85: the group is the bucket of
    [title1] followed by the buckets of exactly those titles, so its members
    are the scenes whose normalised title is [title1] or one of them, and
    it is returned under the key [title1] when it has two members.  A
    merged [title2] is marked consumed, it is already consumed when the
    outer loop reaches it (so it seeds no group and is no key of the result),
    and the call that merged it is the last call of [fuzz.ratio] it takes
    part in. *)
Theorem fuzzy_merge_iff_ratio_exceeds_85
    (ratio : string → string → Q) (scenes : list Scene)
    (i : nat) (title1 : string) :
  let groups := title_groups scenes in
  let titles := Dict.keys groups in
  let before := merge_upto ratio i scenes in
  let after := merge_upto ratio (S i) scenes in
  let final := merge_all ratio scenes in
  let merged :=
    merged_titles ratio (processed before) title1 (drop (S i) titles) in
  titles !! i = Some title1 →
  title1 ∉ processed before →
  (∀ j title2, i < j → titles !! j = Some title2 →
               title2 ∉ processed before →
               (title2 ∈ merged ↔ (85 < ratio title1 title2)%Q))
  ∧ group after
    = Dict.get title1 groups ++ flat_map (λ t, Dict.get t groups) merged
  ∧ (∀ scene, scene ∈ group after
              ↔ scene ∈ scenes ∧ title scene ≠ ""
                ∧ strip (lower (title scene)) ∈ title1 :: merged)
  ∧ processed after = {[title1]} ∪ list_to_set merged ∪ processed before
  ∧ (2 ≤ length (group after) →
     Dict.lookup title1 (find_duplicates_by_name ratio scenes)
     = Some (group after))
  ∧ (∀ title2, title2 ∈ merged →
       title2 ∈ processed after
       ∧ (∀ j, titles !! j = Some title2 →
               title2 ∈ processed (merge_upto ratio j scenes))
       ∧ (title2 ∉ Dict.keys (find_duplicates_by_name ratio scenes))
       ∧ ∃ earlier later_calls,
           compared final = earlier ++ (title1, title2) :: later_calls
           ∧ ∀ a b, (a, b) ∈ later_calls → a ≠ title2 ∧ b ≠ title2).
Proof.
  intros groups titles before after final merged Hi Hseed.
  pose proof (titles_distinct scenes) as Hnd. fold groups titles in Hnd.
  assert (after = outer_body ratio groups titles before (i, title1)) as Hafter
    by (by apply merge_upto_S).
  rewrite outer_body_seed in Hafter by done. fold merged in Hafter.
  assert (title1 ∉ drop (S i) titles) as Hnotlater.
  { rewrite <- (take_drop_middle titles i title1 Hi) in Hnd.
    apply NoDup_app in Hnd as (_ & _ & Hnd).
    by apply NoDup_cons in Hnd as [? _]. }
  split_and!.
  - intros j title2 Hij Hj Hfree. unfold merged, merged_titles.
    rewrite list_elem_of_filter. split; [tauto|]. intros Hlt.
    split_and!; [done..|].
    apply list_elem_of_lookup. exists (j - S i). rewrite lookup_drop.
    by replace (S i + (j - S i)) with j by lia.
  - by rewrite Hafter.
  - intros scene. rewrite Hafter. cbn [group].
    rewrite elem_of_app, elem_of_cons, !list_elem_of_In, in_flat_map.
    setoid_rewrite <- list_elem_of_In. unfold groups.
    setoid_rewrite title_bucket. setoid_rewrite list_elem_of_filter.
    split.
    + intros [((Hne & <-) & Hs)|(t & Ht & (Hne & <-) & Hs)];
        split_and!; auto.
    + intros (Hs & Hne & [<-|Hm]);
        [left | right; exists (strip (lower (title scene)))];
        split_and!; auto.
  - rewrite Hafter. cbn [processed]. set_solver.
  - intros Hlen.
    destruct (extends_all ratio scenes (S i)) as (_ & _ & Hkeep).
    fold after final in Hkeep. unfold find_duplicates_by_name. fold final.
    rewrite Hkeep by (rewrite Hafter; cbn [processed]; set_solver).
    rewrite Hafter in Hlen |- *. cbn [fuzzy_groups group] in Hlen |- *.
    unfold Dict.more_than_one.
    destruct (1 <? _) eqn:E; [|apply Nat.ltb_ge in E; lia].
    rewrite lookup_set. by rewrite decide_True.
  - intros title2 Hm.
    assert (title2 ∈ processed after) as Hcons
      by (rewrite Hafter; cbn [processed]; set_solver).
    pose proof Hm as Hm'. unfold merged, merged_titles in Hm'.
    apply list_elem_of_filter in Hm' as [[Hfree Hlt] Hlater].
    assert (title2 ≠ title1) as Hne by (intros ->; done).
    split_and!; [done | | |].
    + intros j Hj.
      apply list_elem_of_lookup in Hlater as [j' Hj'].
      rewrite lookup_drop in Hj'.
      assert (j = S i + j') as -> by (by eapply NoDup_lookup).
      destruct (extends_upto ratio scenes (S i) (S i + j')) as [Hsub _];
        [lia|]. fold after in Hsub. set_solver.
    + destruct (extends_all ratio scenes (S i)) as (_ & _ & Hkeep).
      fold after final in Hkeep. unfold find_duplicates_by_name.
      fold final. apply lookup_None_keys. rewrite Hkeep by done.
      rewrite Hafter. cbn [fuzzy_groups].
      assert (Dict.lookup title2 (fuzzy_groups before) = None) as Hnone.
      { apply lookup_None_keys. intros Hk. apply Hfree.
        by apply keys_consumed_upto. }
      case_match; [|done]. rewrite lookup_set. by rewrite decide_False.
    + destruct (extends_all ratio scenes (S i))
        as (_ & (extra & Hcmp & Hextra) & _).
      fold after final in Hcmp, Hextra.
      apply list_elem_of_split in Hlater as (r1 & r2 & Hsplit).
      assert (NoDup (r1 ++ title2 :: r2)) as Hnd2
        by (rewrite <- Hsplit; by apply NoDup_drop).
      apply NoDup_app in Hnd2 as (_ & _ & Hnd2).
      apply NoDup_cons in Hnd2 as [Hr2 _].
      exists (compared before
              ++ ((λ t2, (title1, t2))
                    <$> filter (λ t2, t2 ∉ processed before) r1)),
        (((λ t2, (title1, t2)) <$> filter (λ t2, t2 ∉ processed before) r2)
         ++ extra).
      split.
      * rewrite Hcmp, Hafter. cbn [compared]. rewrite Hsplit.
        rewrite filter_app, filter_cons_True by done.
        rewrite fmap_app, fmap_cons. by rewrite <- !app_assoc.
      * intros a b [(t & [= -> ->] & Ht)%list_elem_of_fmap|Hin]%elem_of_app.
        -- apply list_elem_of_filter in Ht as [_ Ht].
           split; [done | by intros ->].
        -- apply Hextra in Hin as [Ha Hb].
           split; intros ->; contradiction.
Qed.

Lemma fuzzy_merge_iff_ratio_exceeds_85_witness :
  Dict.keys (title_groups holiday_catalog) !! 0 = Some "summer vacation 2020"
  ∧ ("summer vacation 2020"
     ∉ processed (merge_upto indel_ratio 0 holiday_catalog))
  ∧ group (merge_upto indel_ratio 1 holiday_catalog)
    = [vacation_2020; vacation_2020_again; vacation_2021].
Proof.
  assert (Dict.keys (title_groups holiday_catalog) !! 0
          = Some "summer vacation 2020") as H1 by (vm_compute; reflexivity).
  assert ("summer vacation 2020"
          ∉ processed (merge_upto indel_ratio 0 holiday_catalog)) as H2
    by (apply not_elem_of_empty).
  split; [exact H1|]. split; [exact H2|].
  destruct (fuzzy_merge_iff_ratio_exceeds_85 indel_ratio holiday_catalog 0
              "summer vacation 2020" H1 H2) as (_ & Hgroup & _).
  rewrite Hgroup. vm_compute. reflexivity.
Defined.

(** C2.  For every scene list and each of the four strategies, every group
    of the returned mapping has at least two member entries. *)
Theorem every_returned_group_has_two_members
    (ratio : string → string → Q) (scenes : list Scene) :
  Forall (λ kv, 2 ≤ length kv.2) (find_duplicates_by_stashid scenes)
  ∧ Forall (λ kv, 2 ≤ length kv.2) (find_duplicates_by_name ratio scenes)
  ∧ Forall (λ kv, 2 ≤ length kv.2) (find_duplicates_by_oshash scenes)
  ∧ Forall (λ kv, 2 ≤ length kv.2) (find_duplicates_by_phash scenes).
Proof.
  assert (∀ d : Dict.t (list Scene),
            Forall (λ kv, 2 ≤ length kv.2)
                   (Dict.comprehension Dict.more_than_one d)) as Hbucket.
  { intros d. apply Forall_forall. intros kv Hkv.
    apply comprehension_keeps in Hkv. unfold Dict.more_than_one in Hkv.
    apply Nat.ltb_lt in Hkv. lia. }
  split_and!; try apply Hbucket.
  apply Forall_forall. unfold find_duplicates_by_name, merge_all.
  apply (foldl_invariant
           (λ st, ∀ kv, kv ∈ fuzzy_groups st → 2 ≤ length kv.2)).
  - intros kv []%elem_of_nil.
  - intros st it _ Hinv.
    apply two_members_step; [apply titles_distinct | done].
Qed.

(** ** Counting the entries a scene contributes *)

Section Multiplicity.
Implicit Types (k kind value : string) (scene : Scene).

Lemma occurrences_app k (l1 l2 : list string) :
  occurrences k (l1 ++ l2) = occurrences k l1 + occurrences k l2.
Proof. unfold occurrences. by rewrite filter_app, length_app. Qed.

Lemma occurrences_absent k (ks : list string) :
  k ∉ ks → occurrences k ks = 0.
Proof.
  unfold occurrences. induction ks as [|k' ks IH]; [done|].
  intros [Hne Hks]%not_elem_of_cons.
  rewrite filter_cons_False by (intros ->; done). by apply IH.
Qed.

Lemma occurrences_present k (ks : list string) :
  k ∈ ks → 0 < occurrences k ks.
Proof.
  unfold occurrences. intros Hk.
  assert (k ∈ filter (λ k', k' = k) ks) as Hf
    by (by apply list_elem_of_filter).
  destruct (filter _ ks); [by apply elem_of_nil in Hf | cbn; lia].
Qed.

Lemma file_values_count kind value file :
  value ≠ "" →
  occurrences value (file_values kind file)
  = length (filter (carries kind value) (default [] (fingerprints file))).
Proof.
  intros Hne. unfold file_values, occurrences.
  induction (default [] (fingerprints file)) as [|fp fps IH]; [done|].
  cbn [omap list_omap].
  destruct (decide (carries kind value fp)) as [[Et Ev]|Hn].
  - rewrite (filter_cons_True (carries kind value)) by done.
    rewrite decide_True by done. rewrite Ev. cbn [truthy].
    rewrite decide_False by done. rewrite filter_cons_True by done.
    cbn [length]. by rewrite IH.
  - rewrite (filter_cons_False (carries kind value)) by done.
    destruct (decide (fp !! "type" = Some kind)) as [Et|Et]; [|done].
    destruct (fp !! "value") as [v|] eqn:Ev; cbn [truthy]; [|done].
    destruct (decide (v = "")); [done|].
    rewrite filter_cons_False; [done|]. intros ->. by apply Hn.
Qed.

Lemma file_values_elem kind value file :
  value ∈ file_values kind file
  ↔ value ≠ ""
    ∧ ∃ fp, fp ∈ default [] (fingerprints file) ∧ carries kind value fp.
Proof.
  unfold file_values. rewrite list_elem_of_omap. unfold carries. split.
  - intros (fp & Hfp & Hv). destruct (decide (fp !! "type" = Some kind));
      [|done].
    destruct (fp !! "value") as [v|] eqn:Ev; cbn in Hv; [|done].
    destruct (decide (v = "")); [done|]. injection Hv as ->. eauto.
  - intros (Hne & fp & Hfp & Et & Ev). exists fp. split; [done|].
    rewrite decide_True by done. rewrite Ev. cbn.
    by rewrite decide_False.
Qed.

Lemma fingerprint_values_elem kind value scene :
  value ∈ fingerprint_values kind scene
  ↔ value ≠ ""
    ∧ ∃ file fp, file ∈ files scene
                 ∧ fp ∈ default [] (fingerprints file)
                 ∧ carries kind value fp.
Proof.
  unfold fingerprint_values. rewrite list_elem_of_In, in_flat_map.
  setoid_rewrite <- list_elem_of_In. setoid_rewrite file_values_elem.
  naive_solver.
Qed.

Lemma stash_id_values_count k scene :
  k ≠ "" →
  occurrences k (stash_id_values scene)
  = length (filter (names k) (stash_ids scene)).
Proof.
  intros Hne. unfold stash_id_values, occurrences.
  induction (stash_ids scene) as [|m ms IH]; [done|].
  destruct (decide (names k m)) as [Ek|Hn].
  - rewrite (filter_cons_True (names k)) by done.
    rewrite filter_cons_True
      by (rewrite Ek; cbn; by rewrite decide_False).
    rewrite fmap_cons, Ek. cbn [default].
    rewrite filter_cons_True by done. cbn [length]. by rewrite IH.
  - rewrite (filter_cons_False (names k)) by done.
    rewrite filter_cons. case_decide as Ht; [|done].
    rewrite fmap_cons. rewrite filter_cons_False; [done|].
    intros Ek. apply Hn. unfold names.
    destruct (m !! "stash_id"); [by subst | by destruct Ht].
Qed.

Lemma stash_id_values_elem k scene :
  k ∈ stash_id_values scene
  ↔ k ≠ "" ∧ ∃ m, m ∈ stash_ids scene ∧ names k m.
Proof.
  split.
  - intros Hk. split; [by eapply stash_id_values_nonempty|].
    unfold stash_id_values in Hk.
    apply list_elem_of_fmap in Hk as (m & -> & Hm).
    apply list_elem_of_filter in Hm as [Ht Hm]. exists m. split; [done|].
    unfold names. destruct (m !! "stash_id"); [done | by destruct Ht].
  - intros (Hne & m & Hm & Hk). unfold names in Hk. unfold stash_id_values.
    apply list_elem_of_fmap. exists m. rewrite Hk. split; [done|].
    apply list_elem_of_filter. split; [|done]. rewrite Hk. cbn.
    by rewrite decide_False.
Qed.

(** A key that only [scene] contributes, [n] times, has [n] entries. *)
Lemma bucket_of_one_scene (keys_of : Scene → list string) k
    (before after : list Scene) scene :
  (∀ other, other ∈ before ++ after → k ∉ keys_of other) →
  select k (entries_of keys_of (before ++ scene :: after))
  = replicate (occurrences k (keys_of scene)) scene.
Proof.
  intros Hothers. rewrite select_entries_of.
  assert (∀ l, (∀ other, other ∈ l → k ∉ keys_of other) →
               flat_map (λ s, replicate (occurrences k (keys_of s)) s) l
               = []) as Hnone.
  { induction l as [|s l IH]; intros Hl; [done|]. cbn [flat_map].
    rewrite occurrences_absent by (apply Hl; left).
    apply IH. intros o Ho. apply Hl. by right. }
  rewrite flat_map_app. cbn [flat_map].
  rewrite !Hnone; [by rewrite app_nil_r | |];
    intros o Ho; apply Hothers, elem_of_app; [right | left]; done.
Qed.

Lemma fingerprint_strategy_spec kind strategy scenes :
  fingerprint_strategy kind = Some strategy →
  strategy scenes
  = Dict.comprehension Dict.more_than_one (fingerprint_groups kind scenes).
Proof.
  unfold fingerprint_strategy. repeat case_decide; intros [= <-]; by subst.
Qed.
End Multiplicity.

(** C3.  Fingerprint multiplicity.  For the content-hash and the
    perceptual-hash strategy alike: when a scene has two files, each
    carrying one fingerprint of the requested kind with the same non-empty
    value, and no other scene carries that value, the value's bucket is the
    scene twice and the strategy returns that group of two entries. *)
Theorem one_scene_two_files_form_a_group
    (kind value : string) (strategy : list Scene → Dict.t (list Scene))
    (before after : list Scene) (scene : Scene) (file1 file2 : File) :
  fingerprint_strategy kind = Some strategy →
  value ≠ "" →
  files scene = [file1; file2] →
  length (filter (carries kind value) (default [] (fingerprints file1))) = 1 →
  length (filter (carries kind value) (default [] (fingerprints file2))) = 1 →
  (∀ other file fp, other ∈ before ++ after → file ∈ files other →
                    fp ∈ default [] (fingerprints file) →
                    ¬ carries kind value fp) →
  Dict.get value (fingerprint_groups kind (before ++ scene :: after))
  = [scene; scene]
  ∧ Dict.lookup value (strategy (before ++ scene :: after))
    = Some [scene; scene].
Proof.
  intros Hkind Hne Hfiles H1 H2 Hothers.
  assert (select value (entries_of (fingerprint_values kind)
                          (before ++ scene :: after)) = [scene; scene])
    as Hsel.
  { rewrite bucket_of_one_scene.
    - unfold fingerprint_values. rewrite Hfiles. cbn [flat_map].
      rewrite app_nil_r, occurrences_app, !file_values_count by done.
      by rewrite H1, H2.
    - intros other Ho (_ & file & fp & ? & ? & ?)%fingerprint_values_elem.
      by eapply Hothers. }
  split.
  - by rewrite fingerprint_groups_collect, get_collect_empty.
  - rewrite (fingerprint_strategy_spec kind strategy) by done.
    rewrite fingerprint_groups_collect, lookup_returned_bucket, Hsel.
    by rewrite decide_True by (cbn; lia).
Qed.

Lemma one_scene_two_files_form_a_group_witness :
  Dict.lookup "xyz" (find_duplicates_by_oshash [apple; two_copies])
  = Some [two_copies; two_copies].
Proof.
  refine (proj2 (one_scene_two_files_form_a_group "oshash" "xyz"
                   find_duplicates_by_oshash [apple] [] two_copies
                   _ _ eq_refl _ eq_refl eq_refl eq_refl _)).
  - discriminate.
  - intros other file fp [->%list_elem_of_singleton|[]%elem_of_nil]%elem_of_app.
    intros []%elem_of_nil.
Defined.

(** C9.  Identifier multiplicity.  When the identifier list of a scene
    names the same non-empty identifier twice and no other scene names it,
    the identifier's bucket is the scene twice and identifier grouping
    returns that group of two entries. *)
Theorem identifier_listed_twice_forms_a_group
    (k : string) (before after : list Scene) (scene : Scene) :
  k ≠ "" →
  length (filter (names k) (stash_ids scene)) = 2 →
  (∀ other stash_id, other ∈ before ++ after →
                     stash_id ∈ stash_ids other → ¬ names k stash_id) →
  Dict.get k (stashid_groups (before ++ scene :: after)) = [scene; scene]
  ∧ Dict.lookup k (find_duplicates_by_stashid (before ++ scene :: after))
    = Some [scene; scene].
Proof.
  intros Hne Htwice Hothers.
  assert (select k (entries_of stash_id_values (before ++ scene :: after))
          = [scene; scene]) as Hsel.
  { rewrite bucket_of_one_scene.
    - by rewrite stash_id_values_count, Htwice.
    - intros other Ho (_ & m & ? & ?)%stash_id_values_elem.
      by eapply Hothers. }
  unfold find_duplicates_by_stashid. rewrite stashid_groups_collect. split.
  - by rewrite get_collect_empty.
  - rewrite lookup_returned_bucket, Hsel.
    by rewrite decide_True by (cbn; lia).
Qed.

Lemma identifier_listed_twice_forms_a_group_witness :
  Dict.lookup "st-99" (find_duplicates_by_stashid [apple; listed_twice])
  = Some [listed_twice; listed_twice].
Proof.
  refine (proj2 (identifier_listed_twice_forms_a_group "st-99"
                   [apple] [] listed_twice _ eq_refl _)).
  - discriminate.
  - intros other m [->%list_elem_of_singleton|[]%elem_of_nil]%elem_of_app.
    intros []%elem_of_nil.
Defined.

(** ** Who is in a returned group *)

Lemma select_elem (keys_of : Scene → list string) k scenes scene :
  scene ∈ select k (entries_of keys_of scenes)
  ↔ scene ∈ scenes ∧ k ∈ keys_of scene.
Proof.
  rewrite select_entries_of, list_elem_of_In, in_flat_map.
  setoid_rewrite <- list_elem_of_In. split.
  - intros (s & Hs & [-> Hn]%elem_of_replicate). split; [done|].
    destruct (decide (k ∈ keys_of s)) as [|Hk]; [done|].
    by rewrite occurrences_absent in Hn.
  - intros [Hs Hk]. exists scene. split; [done|].
    apply elem_of_replicate. split; [done|].
    apply occurrences_present in Hk. lia.
Qed.

(** C10.  A fingerprint of the requested kind without a value, or with the
    empty string as value, is skipped, for the content-hash and the
    perceptual-hash strategy alike: the loop body leaves the buckets as they
    are, there is no bucket and no group keyed by the empty string, and every
    member of a returned group owns a fingerprint of that kind whose value is
    the group's key, which is not empty. *)
Theorem valueless_fingerprint_is_skipped
    (kind : string) (strategy : list Scene → Dict.t (list Scene)) :
  fingerprint_strategy kind = Some strategy →
  (∀ scene groups fp,
     fp !! "type" = Some kind →
     fp !! "value" = None ∨ fp !! "value" = Some "" →
     fingerprint_step kind scene groups fp = groups)
  ∧ (∀ scenes, ("" ∉ Dict.keys (fingerprint_groups kind scenes))
               ∧ ("" ∉ Dict.keys (strategy scenes)))
  ∧ (∀ scenes k g scene,
       (k, g) ∈ strategy scenes → scene ∈ g →
       k ≠ "" ∧ ∃ file fp, file ∈ files scene
                           ∧ fp ∈ default [] (fingerprints file)
                           ∧ carries kind k fp).
Proof.
  intros Hkind. split_and!.
  - intros scene groups fp Et Ev. unfold fingerprint_step.
    rewrite decide_True by done. by destruct Ev as [-> | ->].
  - intros scenes.
    assert ("" ∉ Dict.keys (fingerprint_groups kind scenes)) as Hno.
    { rewrite fingerprint_groups_collect, elem_of_keys_collect.
      intros ([k s] & Hk & Hin)%list_elem_of_fmap. cbn in Hk. subst k.
      unfold entries_of in Hin.
      apply list_elem_of_In, in_flat_map in Hin as (s' & _ & Hin).
      apply list_elem_of_In, list_elem_of_fmap in Hin as (k & [= <- <-] & Hk).
      by apply fingerprint_values_elem in Hk as [? _]. }
    split; [done|]. rewrite (fingerprint_strategy_spec kind strategy) by done.
    intros ([k g] & Hk & Hin)%list_elem_of_fmap. cbn in Hk. subst k.
    apply comprehension_elem in Hin. apply Hno.
    apply list_elem_of_fmap. by exists ("", g).
  - intros scenes k g scene Hin Hscene.
    rewrite (fingerprint_strategy_spec kind strategy) in Hin by done.
    rewrite fingerprint_groups_collect in Hin.
    apply returned_bucket in Hin as [-> _].
    apply select_elem in Hscene as [_ Hk].
    by apply fingerprint_values_elem in Hk.
Qed.

Lemma valueless_fingerprint_is_skipped_witness :
  fingerprint_step "phash" apple [("p1", [two_copies])]
    {[ "type" := "phash"; "value" := "" ]}
  = [("p1", [two_copies])].
Proof.
  apply (proj1 (valueless_fingerprint_is_skipped "phash"
                  find_duplicates_by_phash eq_refl)).
  - reflexivity.
  - right. reflexivity.
Defined.

(** ** Identifier grouping in closed form *)

Lemma NoDup_keys_comprehension {V} (keep : V → bool) (d : Dict.t V) :
  NoDup (Dict.keys (Dict.comprehension keep d)).
Proof.
  unfold Dict.comprehension.
  apply (foldl_invariant (λ acc, NoDup (Dict.keys acc))).
  - apply NoDup_nil_2.
  - intros acc [k v] _ Hacc. cbn [fst snd]. destruct (keep v); [|done].
    rewrite keys_set. case_decide; [done|].
    apply NoDup_app. split_and!; [done | | apply NoDup_singleton].
    by intros x Hx ->%list_elem_of_singleton.
Qed.

Lemma sublist_fmap {A B} (f : A → B) (l1 l2 : list A) :
  l1 `sublist_of` l2 → (f <$> l1) `sublist_of` (f <$> l2).
Proof. induction 1; cbn; by constructor. Qed.

Lemma stashid_bucket scenes k :
  k ≠ "" →
  select k (entries_of stash_id_values scenes)
  = flat_map (λ s, replicate (length (filter (names k) (stash_ids s))) s)
             scenes.
Proof.
  intros Hne. rewrite select_entries_of.
  induction scenes as [|s scenes IH]; [done|]. cbn [flat_map].
  by rewrite IH, stash_id_values_count.
Qed.

Lemma stashid_bucket_empty scenes :
  select "" (entries_of stash_id_values scenes) = [].
Proof.
  rewrite select_entries_of.
  induction scenes as [|s scenes IH]; [done|]. cbn [flat_map].
  rewrite IH, occurrences_absent; [done|].
  intros H. by apply stash_id_values_nonempty in H.
Qed.

(** C7, the claim as stated, fails: a white-space-only identifier is not
    ignored; two scenes that share it form a group. *)
Lemma blank_identifier_forms_a_group :
  ¬ (∀ scenes k, blank k → k ∉ Dict.keys (find_duplicates_by_stashid scenes)).
Proof.
  intros H. apply (H [blank_id_left; blank_id_right] " "); [reflexivity|].
  vm_compute. left.
Qed.

(** C7, amended.  Identifier grouping ignores missing and empty-string
    identifiers, which never key a group, and compares identifiers by exact
    string equality: the group of [k] is returned exactly when [k] is not
    empty and the scenes, each repeated once per element of its [stash_ids]
    whose identifier is [k] itself, are at least two.  A scene is a member
    of no more groups than it has distinct non-empty identifiers, and of
    that many when the catalog holds it twice. *)
Theorem identifier_grouping_is_exact (scenes : list Scene) :
  (∀ k g,
     (k, g) ∈ find_duplicates_by_stashid scenes
     ↔ k ≠ ""
       ∧ g = flat_map
               (λ s, replicate (length (filter (names k) (stash_ids s))) s)
               scenes
       ∧ 2 ≤ length g)
  ∧ (∀ scene,
       length (filter (λ kv, scene ∈ kv.2) (find_duplicates_by_stashid scenes))
       ≤ length (remove_dups (stash_id_values scene)))
  ∧ (∀ scene k,
       k ∈ stash_id_values scene →
       ∃ g, Dict.lookup k (find_duplicates_by_stashid [scene; scene]) = Some g
            ∧ scene ∈ g).
Proof.
  unfold find_duplicates_by_stashid. split_and!.
  - intros k g. rewrite stashid_groups_collect, returned_bucket. split.
    + intros [-> Hlen].
      assert (k ≠ "") as Hne.
      { intros ->. rewrite stashid_bucket_empty in Hlen. cbn in Hlen. lia. }
      by rewrite <- stashid_bucket.
    + intros (Hne & -> & Hlen). by rewrite stashid_bucket.
  - intros scene.
    set (result := Dict.comprehension Dict.more_than_one
                     (stashid_groups scenes)).
    set (mine := filter (λ kv, scene ∈ kv.2) result).
    rewrite <- (length_fmap fst mine). apply submseteq_length.
    apply NoDup_submseteq.
    + eapply sublist_NoDup; [apply (NoDup_keys_comprehension
                                      Dict.more_than_one
                                      (stashid_groups scenes))|].
      apply sublist_fmap, sublist_filter.
    + intros k ([k' g] & -> & Hin)%list_elem_of_fmap.
      apply list_elem_of_filter in Hin as [Hscene Hin]. cbn in *.
      unfold result in Hin. rewrite stashid_groups_collect in Hin.
      apply returned_bucket in Hin as [-> _].
      apply select_elem in Hscene as [_ Hk].
      by apply elem_of_remove_dups.
  - intros scene k Hk. exists (select k (entries_of stash_id_values
                                           [scene; scene])).
    rewrite stashid_groups_collect, lookup_returned_bucket.
    assert (scene ∈ select k (entries_of stash_id_values [scene; scene]))
      as Hin by (apply select_elem; split; [left | done]).
    split; [|done]. rewrite decide_True; [done|].
    rewrite select_entries_of. cbn [flat_map].
    rewrite app_nil_r, length_app, !length_replicate.
    apply occurrences_present in Hk. lia.
Qed.

(** ** Member order *)

Lemma name_groups_seed_anchored
    (ratio : string → string → Q) (scenes : list Scene) :
  Forall (seed_anchored (title_groups scenes)
                        (Dict.keys (title_groups scenes)))
         (find_duplicates_by_name ratio scenes).
Proof.
  apply Forall_forall. unfold find_duplicates_by_name, merge_all.
  apply (foldl_invariant
           (λ st, ∀ kv, kv ∈ fuzzy_groups st →
                        seed_anchored (title_groups scenes)
                          (Dict.keys (title_groups scenes)) kv)).
  - intros kv []%elem_of_nil.
  - intros st it Hit Hinv.
    apply seed_anchored_step; [apply titles_distinct | done..].
Qed.

(** C6, the claim as stated, fails for the fuzzy name strategy: a merged
    group lists the whole bucket of its seed before the bucket of a merged
    title, whatever the positions of their scenes in the catalog. *)
Lemma merged_group_is_not_in_encounter_order :
  ¬ Forall (λ kv, encounter_ordered holiday_catalog kv.2)
           (find_duplicates_by_name indel_ratio holiday_catalog).
Proof.
  assert (find_duplicates_by_name indel_ratio holiday_catalog
          = [("summer vacation 2020",
              [vacation_2020; vacation_2020_again; vacation_2021])]) as ->
    by (vm_compute; reflexivity).
  intros [(positions & Hsorted & Hfound) _]%Forall_cons. cbn [snd] in Hfound.
  apply Forall2_cons_inv_r in Hfound as (p1 & ps1 & H1 & Hfound & ->).
  apply Forall2_cons_inv_r in Hfound as (p2 & ps2 & H2 & Hfound & ->).
  apply Forall2_cons_inv_r in Hfound as (p3 & ps3 & H3 & Hfound & ->).
  apply StronglySorted_cons in Hsorted as [_ Hsorted].
  apply StronglySorted_cons in Hsorted as [Hle _].
  apply Forall_cons in Hle as [Hle _].
  destruct p2 as [|[|[|[|p2]]]]; try discriminate H2.
  destruct p3 as [|[|[|[|p3]]]]; try discriminate H3.
  lia.
Qed.

(** C6, amended.  Under the identifier, content-hash and perceptual-hash
    strategies every returned group lists its members in order of encounter
    in the scene list.  Under the fuzzy name strategy every returned group is
    the bucket of its key followed by the whole buckets of titles first met
    after it, in the order these titles were first met, and every bucket
    lists its scenes in order of encounter. *)
Theorem groups_follow_encounter_order
    (ratio : string → string → Q) (scenes : list Scene) :
  Forall (λ kv, encounter_ordered scenes kv.2)
         (find_duplicates_by_stashid scenes)
  ∧ Forall (λ kv, encounter_ordered scenes kv.2)
           (find_duplicates_by_oshash scenes)
  ∧ Forall (λ kv, encounter_ordered scenes kv.2)
           (find_duplicates_by_phash scenes)
  ∧ Forall (seed_anchored (title_groups scenes)
                          (Dict.keys (title_groups scenes)))
           (find_duplicates_by_name ratio scenes)
  ∧ (∀ t, encounter_ordered scenes (Dict.get t (title_groups scenes))).
Proof.
  assert (∀ keys_of,
            Forall (λ kv, encounter_ordered scenes kv.2)
                   (Dict.comprehension Dict.more_than_one
                      (collect (entries_of keys_of scenes) Dict.empty)))
    as Hbucket.
  { intros keys_of. apply Forall_forall. intros [k g] Hin.
    apply returned_bucket in Hin as [-> _].
    apply encounter_ordered_select. }
  split_and!.
  - unfold find_duplicates_by_stashid. rewrite stashid_groups_collect.
    apply Hbucket.
  - unfold find_duplicates_by_oshash. rewrite fingerprint_groups_collect.
    apply Hbucket.
  - unfold find_duplicates_by_phash. rewrite fingerprint_groups_collect.
    apply Hbucket.
  - apply name_groups_seed_anchored.
  - intros t. rewrite title_groups_collect, get_collect_empty.
    apply encounter_ordered_select.
Qed.

(** ** Titles *)

(** C5, the claim as stated, fails: a scene whose title is white space only
    is bucketed, under the empty key, and two of them are returned as a
    group. *)
Lemma blank_title_is_bucketed_and_returned :
  ¬ (∀ ratio scenes scene kv,
       blank (title scene) →
       kv ∈ find_duplicates_by_name ratio scenes → scene ∉ kv.2).
Proof.
  intros H.
  apply (H indel_ratio [blank_title_left; blank_title_right] blank_title_left
           ("", [blank_title_left; blank_title_right])).
  - reflexivity.
  - vm_compute. left.
  - left.
Qed.

(** C5, amended.  In fuzzy name grouping a scene whose title is the empty
    string is excluded: it is in no bucket, contributes no title to compare,
    and is a member of no returned group.  Every scene with a non-empty title
    is bucketed under its title lower-cased and stripped of surrounding white
    space: the bucket of [t] is the scenes with a non-empty title that
    normalises to [t], the compared strings are such normalised titles, and
    every member of a returned group is such a scene. *)
Theorem empty_titles_are_excluded
    (ratio : string → string → Q) (scenes : list Scene) :
  (∀ t, Dict.get t (title_groups scenes)
        = filter (λ s, title s ≠ "" ∧ strip (lower (title s)) = t) scenes)
  ∧ (∀ t, t ∈ Dict.keys (title_groups scenes)
          ↔ ∃ s, s ∈ scenes ∧ title s ≠ "" ∧ strip (lower (title s)) = t)
  ∧ (∀ a b, (a, b) ∈ compared (merge_all ratio scenes) →
            a ∈ Dict.keys (title_groups scenes)
            ∧ b ∈ Dict.keys (title_groups scenes))
  ∧ (∀ kv scene, kv ∈ find_duplicates_by_name ratio scenes → scene ∈ kv.2 →
                 scene ∈ scenes ∧ title scene ≠ ""
                 ∧ strip (lower (title scene))
                   ∈ Dict.keys (title_groups scenes)).
Proof.
  split_and!.
  - apply title_bucket.
  - apply titles_spec.
  - unfold merge_all.
    apply (foldl_invariant
             (λ st, ∀ a b, (a, b) ∈ compared st →
                           a ∈ Dict.keys (title_groups scenes)
                           ∧ b ∈ Dict.keys (title_groups scenes))).
    + intros a b []%elem_of_nil.
    + intros st it Hit Hinv.
      apply compared_titles_step; [apply titles_distinct | done..].
  - intros kv scene Hkv Hscene.
    pose proof (name_groups_seed_anchored ratio scenes) as Hanchored.
    rewrite Forall_forall in Hanchored.
    destruct (Hanchored kv Hkv) as (i & merged & _ & _ & Hmembers).
    rewrite Hmembers in Hscene.
    assert (∃ t, scene ∈ Dict.get t (title_groups scenes)) as [t Ht].
    { apply elem_of_app in Hscene as [?|Hin]; [eauto|].
      apply list_elem_of_In, in_flat_map in Hin as (t & _ & Hin).
      apply list_elem_of_In in Hin. eauto. }
    rewrite title_bucket in Ht.
    apply list_elem_of_filter in Ht as [[Hne Hnorm] Hin].
    split_and!; [done..|]. apply titles_spec. eauto.
Qed.

(** ** Request handlers *)

(** C4.  A selector outside [stashid], [name], [oshash], [phash] is
    reported as not found: once the catalog is fetched, the handler raises
    the 404 exception, and in no case does it answer with a duplicates page,
    empty or not. *)
Theorem unknown_selector_is_not_found
    (ratio : string → string → Q) (duplicate_type : string) (w : World) :
  duplicate_type ∉ ["stashid"; "name"; "oshash"; "phash"] →
  (∀ stash_data,
     upstream w (get_config w) = inr stash_data →
     outcome (find_duplicates ratio duplicate_type w)
     = inl {| status_code := 404; detail := "Duplicate type not found" |})
  ∧ (∀ duplicate_groups method_name selector config groups_total scenes_total,
       outcome (find_duplicates ratio duplicate_type w)
       ≠ inr (DuplicatesHtml duplicate_groups method_name selector config
                             groups_total scenes_total)).
Proof.
  intros Hunknown.
  assert (duplicate_type ≠ "stashid" ∧ duplicate_type ≠ "name"
          ∧ duplicate_type ≠ "oshash" ∧ duplicate_type ≠ "phash")
    as (H1 & H2 & H3 & H4).
  { rewrite !not_elem_of_cons in Hunknown. tauto. }
  split.
  - intros stash_data Hfetch. unfold find_duplicates. rewrite Hfetch.
    by rewrite !decide_False by done.
  - intros ? ? ? ? ? ?. unfold find_duplicates.
    destruct (upstream w (get_config w)); [done|].
    by rewrite !decide_False by done.
Qed.

Lemma unknown_selector_is_not_found_witness :
  outcome (find_duplicates indel_ratio "md5" configured)
  = inl {| status_code := 404; detail := "Duplicate type not found" |}.
Proof.
  refine (proj1 (unknown_selector_is_not_found indel_ratio "md5" configured _)
                {| count := 0; scenes := [] |} eq_refl).
  rewrite !not_elem_of_cons. split_and!; try discriminate.
  apply not_elem_of_nil.
Defined.

(** C8.  When the stored configuration is absent or its endpoint is the
    placeholder, the main page redirects to the settings and fetches nothing,
    but the duplicates handler calls [fetch_all_scenes] with that
    configuration and never redirects. *)
Theorem duplicates_handler_fetches_when_unconfigured
    (ratio : string → string → Q) (duplicate_type : string) (w : World) :
  unconfigured w →
  stash_endpoint (get_config w) = placeholder_endpoint
  ∧ fetches (root w) = []
  ∧ outcome (root w) = inr (RedirectResponse "/settings" 307)
  ∧ fetches (find_duplicates ratio duplicate_type w) = [get_config w]
  ∧ (∀ url status,
       outcome (find_duplicates ratio duplicate_type w)
       ≠ inr (RedirectResponse url status)).
Proof.
  intros Hw.
  assert (stash_endpoint (get_config w) = placeholder_endpoint) as Hplace.
  { unfold get_config. destruct Hw as [-> | (config & -> & ?)]; done. }
  split_and!; [done | | | |].
  - unfold root. rewrite Hplace. done.
  - unfold root. rewrite Hplace. done.
  - unfold find_duplicates. by destruct (upstream _ _).
  - intros url status. unfold find_duplicates.
    destruct (upstream _ _); [done|]. cbn [outcome].
    repeat case_decide; done.
Qed.

Lemma duplicates_handler_fetches_when_unconfigured_witness :
  fetches (find_duplicates indel_ratio "stashid" fresh_install)
  = [{| stash_endpoint := "http://localhost:9999/graphql";
        api_key := Some "" |}].
Proof.
  refine (proj1 (proj2 (proj2 (proj2
            (duplicates_handler_fetches_when_unconfigured
               indel_ratio "stashid" fresh_install _))))).
  left. reflexivity.
Defined.

(** * Further properties *)

(** ** Order and distinctness of the returned groups *)

Lemma set_fresh {V} (d : Dict.t V) k (v : V) :
  k ∉ Dict.keys d → Dict.set k v d = d ++ [(k, v)].
Proof.
  induction d as [|[k' v'] d IH]; [done|].
  unfold Dict.keys. rewrite fmap_cons, not_elem_of_cons. cbn [fst].
  intros [Hne Hk]. cbn [Dict.set]. rewrite decide_False by done.
  by rewrite IH.
Qed.


Lemma more_than_one_spec {A} (v : list A) :
  Dict.more_than_one v = true ↔ 2 ≤ length v.
Proof. unfold Dict.more_than_one. rewrite Nat.ltb_lt. lia. Qed.



Lemma name_keys_sublist (ratio : string → string → Q) scenes n :
  Dict.keys (fuzzy_groups (merge_upto ratio n scenes))
    `sublist_of` take n (Dict.keys (title_groups scenes))
  ∧ NoDup (Dict.keys (fuzzy_groups (merge_upto ratio n scenes))).
Proof.
  induction n as [|n [IH IHnd]]; [split; [done | apply NoDup_nil_2]|].
  destruct (Dict.keys (title_groups scenes) !! n) as [t|] eqn:Ht.
  - rewrite (merge_upto_S ratio scenes n t Ht).
    rewrite (take_S_r _ _ _ Ht).
    destruct (decide (t ∈ processed (merge_upto ratio n scenes))) as [Hin|Hin].
    { rewrite outer_body_skip by done.
      split; [by apply sublist_inserts_r | done]. }
    rewrite outer_body_seed by (done || apply titles_distinct).
    cbn [fuzzy_groups]. case_match;
      [|split; [by apply sublist_inserts_r | done]].
    assert (t ∉ Dict.keys (fuzzy_groups (merge_upto ratio n scenes))) as Hk
      by (intros Hk; by apply Hin, keys_consumed_upto).
    rewrite keys_set, decide_False by done. split.
    + by apply sublist_app.
    + apply NoDup_app. split_and!; [done | | apply NoDup_singleton].
      by intros x Hx ->%list_elem_of_singleton.
  - assert (merge_upto ratio (S n) scenes = merge_upto ratio n scenes) as ->.
    { unfold merge_upto. apply lookup_ge_None in Ht.
      rewrite !take_ge; [done | |]; unfold enumerate; rewrite length_imap;
        lia. }
    split; [|done]. apply lookup_ge_None in Ht.
    rewrite take_ge by lia. rewrite take_ge in IH by lia. done.
Qed.

Lemma merge_all_upto (ratio : string → string → Q) scenes :
  merge_all ratio scenes
  = merge_upto ratio (length (Dict.keys (title_groups scenes))) scenes.
Proof.
  unfold merge_all, merge_upto. rewrite take_ge; [done|].
  unfold enumerate. by rewrite length_imap.
Qed.

(** X2.  The mapping of each strategy has no key twice, and the fuzzy name
    strategy lists its groups in the order in which their keys, normalised
    titles, were first met in the catalog. *)
Theorem returned_keys_are_distinct_and_ordered
    (ratio : string → string → Q) (scenes : list Scene) :
  NoDup (Dict.keys (find_duplicates_by_stashid scenes))
  ∧ NoDup (Dict.keys (find_duplicates_by_oshash scenes))
  ∧ NoDup (Dict.keys (find_duplicates_by_phash scenes))
  ∧ NoDup (Dict.keys (find_duplicates_by_name ratio scenes))
  ∧ Dict.keys (find_duplicates_by_name ratio scenes)
      `sublist_of` Dict.keys (title_groups scenes).
Proof.
  split_and!; try apply NoDup_keys_comprehension;
    unfold find_duplicates_by_name; rewrite merge_all_upto;
    destruct (name_keys_sublist ratio scenes
                (length (Dict.keys (title_groups scenes)))) as [Hsub Hnd];
    [done|]. by rewrite take_ge in Hsub by lia.
Qed.

(** ** Where the groups of the fuzzy name strategy come from *)

Section Provenance.
Variable ratio : string → string → Q.
Variable scenes : list Scene.

Local Abbreviation groups := (title_groups scenes).
Local Abbreviation titles := (Dict.keys (title_groups scenes)).
Local Abbreviation upto n := (merge_upto ratio n scenes).
Local Abbreviation bucket := (λ t, Dict.get t (title_groups scenes)).
Local Abbreviation merged_at i k :=
  (merged_titles ratio (processed (merge_upto ratio i scenes)) k
     (drop (S i) (Dict.keys (title_groups scenes)))).

Lemma merge_upto_beyond n :
  titles !! n = None → upto (S n) = upto n.
Proof.
  intros Hn%lookup_ge_None. unfold merge_upto.
  rewrite !take_ge; [done | |]; unfold enumerate; rewrite length_imap; lia.
Qed.

(** The iteration of a seed, spelled out. *)
Lemma merge_upto_seed i k :
  titles !! i = Some k → k ∉ processed (upto i) →
  upto (S i)
  = {| processed := {[k]} ∪ (list_to_set (merged_at i k)
                             ∪ processed (upto i));
       fuzzy_groups :=
         if Dict.more_than_one
              (bucket k ++ flat_map bucket (merged_at i k))
         then Dict.set k (bucket k ++ flat_map bucket (merged_at i k))
                       (fuzzy_groups (upto i))
         else fuzzy_groups (upto i);
       group := bucket k ++ flat_map bucket (merged_at i k);
       compared := compared (upto i)
                   ++ ((λ t2, (k, t2))
                         <$> filter (λ t2, t2 ∉ processed (upto i))
                                    (drop (S i) titles)) |}.
Proof.
  intros Hi Hk. rewrite (merge_upto_S ratio scenes i k Hi).
  by rewrite outer_body_seed by (done || apply titles_distinct).
Qed.

(** Every stored group is the group of a seed. *)
Lemma group_provenance n k g :
  (k, g) ∈ fuzzy_groups (upto n) →
  ∃ i, i < n ∧ titles !! i = Some k ∧ (k ∉ processed (upto i))
       ∧ g = bucket k ++ flat_map bucket (merged_at i k).
Proof.
  induction n as [|n IH]; [by intros ?%elem_of_nil|].
  destruct (titles !! n) as [t|] eqn:Ht.
  - destruct (decide (t ∈ processed (upto n))) as [Hin|Hin].
    + rewrite (merge_upto_S ratio scenes n t Ht).
      rewrite outer_body_skip by done.
      intros (i & ? & ?)%IH. exists i. split; [lia | done].
    + rewrite (merge_upto_seed n t Ht Hin). cbn [fuzzy_groups].
      assert ((k, g) ∈ fuzzy_groups (upto n) →
              ∃ i, i < S n ∧ titles !! i = Some k ∧ (k ∉ processed (upto i))
                   ∧ g = bucket k ++ flat_map bucket (merged_at i k))
        as Hold.
      { intros (i & ? & ?)%IH. exists i. split; [lia | done]. }
      case_match; [|done].
      intros [[= -> ->]|?]%elem_of_set; [|auto].
      exists n. split_and!; [lia | done..].
  - rewrite (merge_upto_beyond n Ht).
    intros (i & ? & ?)%IH. exists i. split; [lia | done].
Qed.

(** Every consumed title was a seed or was merged by a seed. *)
Lemma consumed_provenance n t :
  t ∈ processed (upto n) →
  ∃ i k, i < n ∧ titles !! i = Some k ∧ (k ∉ processed (upto i))
         ∧ t ∈ k :: merged_at i k.
Proof.
  induction n as [|n IH]; [by intros ?%elem_of_empty|].
  destruct (titles !! n) as [t'|] eqn:Ht.
  - destruct (decide (t' ∈ processed (upto n))) as [Hin|Hin].
    + rewrite (merge_upto_S ratio scenes n t' Ht).
      rewrite outer_body_skip by done.
      intros (i & k & ? & ?)%IH. exists i, k. split; [lia | done].
    + rewrite (merge_upto_seed n t' Ht Hin). cbn [processed].
      rewrite !elem_of_union, elem_of_singleton, elem_of_list_to_set.
      intros [->|[Hm|Hold]].
      * exists n, t'. split_and!; [lia | done.. | left].
      * exists n, t'. split_and!; [lia | done.. | by right].
      * apply IH in Hold as (i & k & ? & ?). exists i, k.
        split; [lia | done].
  - rewrite (merge_upto_beyond n Ht).
    intros (i & k & ? & ?)%IH. exists i, k. split; [lia | done].
Qed.

(** The titles of a seed's group are consumed once its iteration is over. *)
Lemma seed_titles_consumed i k t :
  titles !! i = Some k → k ∉ processed (upto i) →
  t ∈ k :: merged_at i k → t ∈ processed (upto (S i)).
Proof.
  intros Hi Hk Ht. rewrite (merge_upto_seed i k Hi Hk). cbn [processed].
  apply elem_of_cons in Ht as [->|Ht]; set_solver.
Qed.

(** The titles of a seed's group were not consumed when it started. *)
Lemma seed_titles_fresh i k t :
  k ∉ processed (upto i) → t ∈ k :: merged_at i k →
  t ∉ processed (upto i).
Proof.
  intros Hk [->|Ht]%elem_of_cons; [done|].
  unfold merged_titles in Ht. by apply list_elem_of_filter in Ht as [[? _] _].
Qed.

(** The members of a seed's group are the scenes of its titles. *)
Lemma seed_group_member k (merged : list string) scene :
  scene ∈ bucket k ++ flat_map bucket merged
  ↔ scene ∈ scenes ∧ title scene ≠ ""
    ∧ strip (lower (title scene)) ∈ k :: merged.
Proof.
  rewrite elem_of_app, elem_of_cons, !list_elem_of_In, in_flat_map.
  setoid_rewrite <- list_elem_of_In.
  setoid_rewrite title_bucket. setoid_rewrite list_elem_of_filter.
  split.
  - intros [((Hne & <-) & Hs)|(t & Ht & (Hne & <-) & Hs)];
      split_and!; auto.
  - intros (Hs & Hne & [<-|Hm]);
      [left | right; exists (strip (lower (title scene)))];
      split_and!; auto.
Qed.

(** A stored seed's group is still there when the loop has finished. *)
Lemma seed_group_returned i k :
  titles !! i = Some k → k ∉ processed (upto i) →
  2 ≤ length (bucket k ++ flat_map bucket (merged_at i k)) →
  (k, bucket k ++ flat_map bucket (merged_at i k))
  ∈ find_duplicates_by_name ratio scenes.
Proof.
  intros Hi Hk Hlen. apply lookup_Some_elem.
  destruct (extends_all ratio scenes (S i)) as (_ & _ & Hkeep).
  unfold find_duplicates_by_name. rewrite Hkeep
    by (apply (seed_titles_consumed i k); [done.. | left]).
  rewrite (merge_upto_seed i k Hi Hk). cbn [fuzzy_groups].
  apply more_than_one_spec in Hlen. rewrite Hlen.
  rewrite lookup_set. by rewrite decide_True.
Qed.
End Provenance.

(** ** What the fuzzy name strategy reports *)

Lemma name_group_provenance (ratio : string → string → Q) scenes k g :
  (k, g) ∈ find_duplicates_by_name ratio scenes →
  ∃ i, Dict.keys (title_groups scenes) !! i = Some k
       ∧ (k ∉ processed (merge_upto ratio i scenes))
       ∧ g = Dict.get k (title_groups scenes)
             ++ flat_map (λ t, Dict.get t (title_groups scenes))
                  (merged_titles ratio (processed (merge_upto ratio i scenes))
                     k (drop (S i) (Dict.keys (title_groups scenes)))).
Proof.
  unfold find_duplicates_by_name. rewrite merge_all_upto.
  intros (i & _ & ?)%group_provenance. by exists i.
Qed.

Lemma seed_groups_apart (ratio : string → string → Q) scenes
    i1 k1 i2 k2 scene :
  i1 < i2 →
  Dict.keys (title_groups scenes) !! i1 = Some k1 →
  k1 ∉ processed (merge_upto ratio i1 scenes) →
  k2 ∉ processed (merge_upto ratio i2 scenes) →
  strip (lower (title scene))
    ∈ k1 :: merged_titles ratio (processed (merge_upto ratio i1 scenes)) k1
              (drop (S i1) (Dict.keys (title_groups scenes))) →
  strip (lower (title scene))
    ∈ k2 :: merged_titles ratio (processed (merge_upto ratio i2 scenes)) k2
              (drop (S i2) (Dict.keys (title_groups scenes))) →
  False.
Proof.
  intros Hlt Hi1 Hk1 Hk2 Hin1 Hin2.
  apply (seed_titles_fresh ratio scenes i2 k2 _ Hk2 Hin2).
  destruct (extends_upto ratio scenes (S i1) i2) as [Hsub _]; [lia|].
  apply Hsub. by apply (seed_titles_consumed ratio scenes i1 k1).
Qed.

(** X3.  The fuzzy name strategy reports no scene twice: a scene that is a
    member of two returned groups is a member of one group, listed once in
    the mapping. *)
Theorem name_groups_are_disjoint
    (ratio : string → string → Q) (scenes : list Scene)
    (k1 k2 : string) (g1 g2 : list Scene) (scene : Scene) :
  (k1, g1) ∈ find_duplicates_by_name ratio scenes →
  (k2, g2) ∈ find_duplicates_by_name ratio scenes →
  scene ∈ g1 → scene ∈ g2 →
  k1 = k2 ∧ g1 = g2.
Proof.
  intros (i1 & Hi1 & Hk1 & ->)%name_group_provenance
         (i2 & Hi2 & Hk2 & ->)%name_group_provenance Hin1 Hin2.
  apply seed_group_member in Hin1 as (_ & _ & Hin1).
  apply seed_group_member in Hin2 as (_ & _ & Hin2).
  destruct (Nat.lt_trichotomy i1 i2) as [Hlt|[->|Hlt]].
  - exfalso. by eapply (seed_groups_apart ratio scenes i1 k1 i2 k2).
  - rewrite Hi1 in Hi2. by injection Hi2 as ->.
  - exfalso. by eapply (seed_groups_apart ratio scenes i2 k2 i1 k1).
Qed.

Lemma name_groups_are_disjoint_witness :
  ("summer vacation 2020",
   [vacation_2020; vacation_2020_again; vacation_2021])
  ∈ find_duplicates_by_name indel_ratio holiday_catalog
  ∧ vacation_2021 ∈ [vacation_2020; vacation_2020_again; vacation_2021]
  ∧ "summer vacation 2020" = "summer vacation 2020"
  ∧ [vacation_2020; vacation_2020_again; vacation_2021]
    = [vacation_2020; vacation_2020_again; vacation_2021].
Proof.
  assert (("summer vacation 2020",
           [vacation_2020; vacation_2020_again; vacation_2021])
          ∈ find_duplicates_by_name indel_ratio holiday_catalog) as Hin
    by (vm_compute; left).
  assert (vacation_2021
          ∈ [vacation_2020; vacation_2020_again; vacation_2021]) as Hmem
    by (right; right; left).
  split; [exact Hin|]. split; [exact Hmem|].
  exact (name_groups_are_disjoint indel_ratio holiday_catalog _ _ _ _
           vacation_2021 Hin Hin Hmem Hmem).
Defined.

Lemma filter_two {A} (P : A → Prop) `{!∀ x, Decision (P x)}
    (l : list A) i j x y :
  i < j → l !! i = Some x → l !! j = Some y → P x → P y →
  2 ≤ length (filter P l).
Proof.
  intros Hij Hi Hj Hx Hy.
  rewrite <- (take_drop_middle l i x Hi), filter_app.
  rewrite filter_cons_True by done. rewrite length_app. cbn [length].
  assert (y ∈ drop (S i) l) as Hin.
  { apply list_elem_of_lookup. exists (j - S i). rewrite lookup_drop.
    by replace (S i + (j - S i)) with j by lia. }
  assert (y ∈ filter P (drop (S i) l)) as Hf
    by (by apply list_elem_of_filter).
  destruct (filter P (drop (S i) l)); [by apply elem_of_nil in Hf|].
  cbn [length]. lia.
Qed.

Lemma length_flat_map_elem {A B} (f : A → list B) (l : list A) x :
  x ∈ l → length (f x) ≤ length (flat_map f l).
Proof.
  intros (l1 & l2 & ->)%list_elem_of_split.
  rewrite flat_map_app. cbn [flat_map]. rewrite !length_app. lia.
Qed.

(** X4.  Exact duplicates are always reported together: two scenes at
    different places of the catalog whose titles are not empty and agree
    after lower-casing and stripping are members of one returned group,
    whatever the similarity ratio says. *)
Theorem exact_title_duplicates_are_grouped
    (ratio : string → string → Q) (scenes : list Scene)
    (i j : nat) (scene1 scene2 : Scene) :
  scenes !! i = Some scene1 → scenes !! j = Some scene2 → i ≠ j →
  title scene1 ≠ "" → title scene2 ≠ "" →
  strip (lower (title scene1)) = strip (lower (title scene2)) →
  ∃ k g, (k, g) ∈ find_duplicates_by_name ratio scenes
         ∧ scene1 ∈ g ∧ scene2 ∈ g.
Proof.
  intros Hi Hj Hij Hne1 Hne2 Hsame.
  set (t := strip (lower (title scene1))).
  assert (scene1 ∈ scenes ∧ scene2 ∈ scenes) as [Hs1 Hs2]
    by (split; by eapply list_elem_of_lookup_2).
  assert (2 ≤ length (Dict.get t (title_groups scenes))) as Hbucket.
  { rewrite title_bucket.
    destruct (Nat.lt_trichotomy i j) as [Hlt|[->|Hlt]]; [|done|].
    - by eapply (filter_two _ scenes i j scene1 scene2).
    - by eapply (filter_two _ scenes j i scene2 scene1). }
  assert (t ∈ Dict.keys (title_groups scenes)) as Ht
    by (apply titles_spec; by exists scene1).
  apply list_elem_of_lookup in Ht as [p Hp].
  assert (∃ q k, Dict.keys (title_groups scenes) !! q = Some k
                 ∧ (k ∉ processed (merge_upto ratio q scenes))
                 ∧ t ∈ k :: merged_titles ratio
                             (processed (merge_upto ratio q scenes)) k
                             (drop (S q) (Dict.keys (title_groups scenes))))
    as (q & k & Hq & Hk & Hin).
  { destruct (decide (t ∈ processed (merge_upto ratio p scenes)))
      as [Hcons|Hfree].
    - apply consumed_provenance in Hcons as (q & k & _ & ? & ? & ?). eauto.
    - exists p, t. split_and!; [done.. | left]. }
  eexists k, _. split.
  - apply (seed_group_returned ratio scenes q k Hq Hk).
    apply elem_of_cons in Hin as [<-|Hin].
    + rewrite length_app. lia.
    + rewrite length_app.
      pose proof (length_flat_map_elem
                    (λ t, Dict.get t (title_groups scenes)) _ t Hin). lia.
  - split; apply seed_group_member; split_and!; try done.
    by rewrite <- Hsame.
Qed.

Lemma exact_title_duplicates_are_grouped_witness :
  ∃ k g, (k, g) ∈ find_duplicates_by_name indel_ratio holiday_catalog
         ∧ vacation_2020 ∈ g ∧ vacation_2020_again ∈ g.
Proof.
  apply (exact_title_duplicates_are_grouped indel_ratio holiday_catalog 0 2);
    try reflexivity; discriminate.
Defined.

(** X5.  The key of every group of the fuzzy name strategy is the normalised
    title of the group's first member, which is the first scene of the
    catalog with that normalised title. *)
Theorem name_group_key_is_first_member_title
    (ratio : string → string → Q) (scenes : list Scene) :
  Forall (λ kv, ∃ first others,
            kv.2 = first :: others
            ∧ title first ≠ ""
            ∧ strip (lower (title first)) = kv.1
            ∧ head (filter (λ s, title s ≠ ""
                                 ∧ strip (lower (title s)) = kv.1) scenes)
              = Some first)
         (find_duplicates_by_name ratio scenes).
Proof.
  apply Forall_forall. intros [k g] (i & Hi & _ & ->)%name_group_provenance.
  cbn [fst snd]. rewrite title_bucket.
  assert (k ∈ Dict.keys (title_groups scenes)) as Hk
    by (by eapply list_elem_of_lookup_2).
  apply titles_spec in Hk as (s & Hs & Hne & Hnorm).
  assert (s ∈ filter (λ s, title s ≠ "" ∧ strip (lower (title s)) = k)
                     scenes) as Hf by (by apply list_elem_of_filter).
  destruct (filter _ scenes) as [|first others] eqn:E;
    [by apply elem_of_nil in Hf|].
  assert (first ∈ filter (λ s, title s ≠ "" ∧ strip (lower (title s)) = k)
                         scenes) as Hfirst by (rewrite E; left).
  apply list_elem_of_filter in Hfirst as [[? ?] _].
  eexists first, _. split_and!; done.
Qed.

Lemma filter_none {A} (P : A → Prop) `{!∀ x, Decision (P x)} (l : list A) :
  (∀ x, x ∈ l → ¬ P x) → filter P l = [].
Proof.
  induction l as [|x l IH]; intros Hl; [done|].
  rewrite filter_cons_False by (apply Hl; left).
  apply IH. intros y Hy. apply Hl. by right.
Qed.

Lemma exact_buckets_upto (ratio : string → string → Q) scenes n :
  (∀ t1 t2, t1 ∈ Dict.keys (title_groups scenes) →
            t2 ∈ Dict.keys (title_groups scenes) →
            t1 ≠ t2 → ¬ (85 < ratio t1 t2)%Q) →
  processed (merge_upto ratio n scenes)
  = list_to_set (take n (Dict.keys (title_groups scenes)))
  ∧ fuzzy_groups (merge_upto ratio n scenes)
    = filter (λ kv, 2 ≤ length kv.2) (take n (title_groups scenes)).
Proof.
  intros Hfar. pose proof (titles_distinct scenes) as Hnd.
  induction n as [|n [IHp IHg]]; [split; reflexivity|].
  destruct (Dict.keys (title_groups scenes) !! n) as [t|] eqn:Ht.
  - assert (∃ v, title_groups scenes !! n = Some (t, v)) as [v Hv].
    { unfold Dict.keys in Ht.
      apply list_lookup_fmap_Some in Ht as ([t' v] & -> & Hv).
      by exists v. }
    assert (t ∉ take n (Dict.keys (title_groups scenes))) as Hfresh.
    { intros (m & Hm & Hlt)%elem_of_take.
      pose proof (NoDup_lookup _ _ _ _ Hnd Hm Ht). lia. }
    assert (t ∉ processed (merge_upto ratio n scenes)) as Hseed
      by (rewrite IHp; by rewrite elem_of_list_to_set).
    rewrite (merge_upto_seed ratio scenes n t Ht Hseed).
    cbn [processed fuzzy_groups].
    assert (merged_titles ratio (processed (merge_upto ratio n scenes)) t
              (drop (S n) (Dict.keys (title_groups scenes))) = []) as ->.
    { apply filter_none. intros t2 Ht2 [_ Hlt].
      apply (Hfar t t2); [by eapply list_elem_of_lookup_2
                         | by eapply elem_of_drop_1 | | done].
      intros <-. rewrite <- (take_drop_middle _ n t Ht) in Hnd.
      apply NoDup_app in Hnd as (_ & _ & Hnd).
      by apply NoDup_cons in Hnd as [? _]. }
    cbn [flat_map list_to_set foldr]. rewrite app_nil_r.
    assert (Dict.get t (title_groups scenes) = v) as ->.
    { unfold Dict.get. erewrite NoDup_lookup_elem; [done | done |].
      by eapply list_elem_of_lookup_2. }
    rewrite (take_S_r _ _ _ Ht), (take_S_r _ _ _ Hv). split.
    + rewrite IHp, list_to_set_app_L. cbn. set_solver.
    + unfold Dict.t. rewrite filter_app, filter_cons, filter_nil.
      cbn [snd]. rewrite IHg.
      destruct (decide (2 ≤ length v)) as [Hlen|Hlen].
      * apply more_than_one_spec in Hlen. rewrite Hlen.
        apply set_fresh. intros Hk. apply Hfresh.
        unfold Dict.keys in Hk |- *. rewrite <- fmap_take.
        apply list_elem_of_fmap in Hk as (kv & -> & Hkv).
        apply list_elem_of_filter in Hkv as [_ Hkv].
        apply list_elem_of_fmap. by exists kv.
      * assert (Dict.more_than_one v = false) as ->.
        { destruct (Dict.more_than_one v) eqn:E; [|done].
          by apply more_than_one_spec in E. }
        by rewrite app_nil_r.
  - rewrite (merge_upto_beyond ratio scenes n Ht).
    pose proof Ht as Hlen%lookup_ge_None.
    assert (length (title_groups scenes) ≤ n) as Hlen'
      by (unfold Dict.keys in Hlen; by rewrite length_fmap in Hlen).
    rewrite (take_ge _ (S n)), (take_ge (title_groups scenes) (S n)) by lia.
    rewrite take_ge in IHp by lia. rewrite take_ge in IHg by lia. done.
Qed.

(** X6.  When no two different normalised titles of the catalog have a
    ratio above 85, the fuzzy name strategy returns the exact-title buckets
    of two or more scenes, unchanged and in first-encounter order. *)
Theorem dissimilar_titles_give_exact_buckets
    (ratio : string → string → Q) (scenes : list Scene) :
  (∀ t1 t2, t1 ∈ Dict.keys (title_groups scenes) →
            t2 ∈ Dict.keys (title_groups scenes) →
            t1 ≠ t2 → ¬ (85 < ratio t1 t2)%Q) →
  find_duplicates_by_name ratio scenes
  = filter (λ kv, 2 ≤ length kv.2) (title_groups scenes).
Proof.
  intros Hfar. unfold find_duplicates_by_name. rewrite merge_all_upto.
  destruct (exact_buckets_upto ratio scenes
              (length (Dict.keys (title_groups scenes))) Hfar) as [_ ->].
  rewrite take_ge; [done|]. unfold Dict.keys. by rewrite length_fmap.
Qed.

Lemma dissimilar_titles_give_exact_buckets_witness :
  find_duplicates_by_name indel_ratio small_catalog
  = filter (λ kv, 2 ≤ length kv.2) (title_groups small_catalog).
Proof.
  apply dissimilar_titles_give_exact_buckets.
  assert (Dict.keys (title_groups small_catalog)
          = ["midnight run"; "alpha"; "bravo"; "charlie"]) as ->
    by (vm_compute; reflexivity).
  intros t1 t2 H1 H2 Hne.
  repeat (apply elem_of_cons in H1 as [->|H1]);
    [..| by apply elem_of_nil in H1];
    (repeat (apply elem_of_cons in H2 as [->|H2]);
     [..| by apply elem_of_nil in H2]);
    try (elim Hne; reflexivity); vm_compute; discriminate.
Defined.

(** ** What the bucket strategies report *)

Lemma fingerprint_values_count kind value scene :
  value ≠ "" →
  occurrences value (fingerprint_values kind scene)
  = length (filter (carries kind value)
              (flat_map (λ file, default [] (fingerprints file))
                        (files scene))).
Proof.
  intros Hne. unfold fingerprint_values.
  induction (files scene) as [|file fs IH]; [done|]. cbn [flat_map].
  by rewrite occurrences_app, filter_app, length_app, IH, file_values_count.
Qed.

Lemma fingerprint_bucket kind scenes k :
  k ≠ "" →
  select k (entries_of (fingerprint_values kind) scenes)
  = flat_map
      (λ s, replicate
              (length (filter (carries kind k)
                         (flat_map (λ file, default [] (fingerprints file))
                                   (files s)))) s)
      scenes.
Proof.
  intros Hne. rewrite select_entries_of.
  induction scenes as [|s scenes IH]; [done|]. cbn [flat_map].
  by rewrite IH, fingerprint_values_count.
Qed.

Lemma fingerprint_bucket_empty kind scenes :
  select "" (entries_of (fingerprint_values kind) scenes) = [].
Proof.
  rewrite select_entries_of.
  induction scenes as [|s scenes IH]; [done|]. cbn [flat_map].
  rewrite IH, occurrences_absent; [done|].
  by intros [? _]%fingerprint_values_elem.
Qed.

(** X7.  The content-hash and the perceptual-hash strategy in closed form:
    the group of [k] is returned exactly when [k] is not empty and the
    scenes, each repeated once per fingerprint of its files that has the
    strategy's kind and the value [k] itself, are at least two.
    Fingerprints of another kind count for nothing. *)
Theorem fingerprint_grouping_is_exact
    (kind : string) (strategy : list Scene → Dict.t (list Scene))
    (scenes : list Scene) (k : string) (g : list Scene) :
  fingerprint_strategy kind = Some strategy →
  (k, g) ∈ strategy scenes
  ↔ k ≠ ""
    ∧ g = flat_map
            (λ s, replicate
                    (length
                       (filter (carries kind k)
                          (flat_map (λ file, default [] (fingerprints file))
                                    (files s)))) s)
            scenes
    ∧ 2 ≤ length g.
Proof.
  intros Hkind. rewrite (fingerprint_strategy_spec kind strategy) by done.
  rewrite fingerprint_groups_collect, returned_bucket. split.
  - intros [-> Hlen].
    assert (k ≠ "") as Hne.
    { intros ->. rewrite fingerprint_bucket_empty in Hlen. cbn in Hlen. lia. }
    by rewrite <- fingerprint_bucket.
  - intros (Hne & -> & Hlen). by rewrite fingerprint_bucket.
Qed.

Lemma fingerprint_grouping_is_exact_witness :
  ("xyz", [two_copies; two_copies])
  ∈ find_duplicates_by_oshash [apple; two_copies].
Proof.
  apply (fingerprint_grouping_is_exact "oshash" find_duplicates_by_oshash
           [apple; two_copies] "xyz" [two_copies; two_copies] eq_refl).
  split_and!; [discriminate | reflexivity | cbn; lia].
Defined.

Lemma length_flat_map_two {A B} (f : A → list B) (l : list A) i j x y :
  i < j → l !! i = Some x → l !! j = Some y →
  length (f x) + length (f y) ≤ length (flat_map f l).
Proof.
  intros Hij Hi Hj.
  rewrite <- (take_drop_middle l i x Hi), flat_map_app. cbn [flat_map].
  rewrite !length_app.
  assert (y ∈ drop (S i) l) as Hin.
  { apply list_elem_of_lookup. exists (j - S i). rewrite lookup_drop.
    by replace (S i + (j - S i)) with j by lia. }
  pose proof (length_flat_map_elem f _ y Hin). lia.
Qed.

(** A key that two scenes at different places contribute is returned with
    a group that holds both. *)
Lemma shared_key_is_reported (keys_of : Scene → list string)
    (scenes : list Scene) i j scene1 scene2 k :
  scenes !! i = Some scene1 → scenes !! j = Some scene2 → i ≠ j →
  k ∈ keys_of scene1 → k ∈ keys_of scene2 →
  ∃ g, Dict.lookup k (Dict.comprehension Dict.more_than_one
                        (collect (entries_of keys_of scenes) Dict.empty))
       = Some g
       ∧ scene1 ∈ g ∧ scene2 ∈ g.
Proof.
  intros Hi Hj Hij Hk1 Hk2. eexists. rewrite lookup_returned_bucket.
  split_and!.
  - apply decide_True. rewrite select_entries_of.
    pose proof (occurrences_present _ _ Hk1).
    pose proof (occurrences_present _ _ Hk2).
    destruct (Nat.lt_trichotomy i j) as [Hlt|[->|Hlt]]; [|done|].
    + pose proof (length_flat_map_two
                    (λ s, replicate (occurrences k (keys_of s)) s)
                    scenes i j scene1 scene2 Hlt Hi Hj) as Hlen.
      cbn beta in Hlen. rewrite !length_replicate in Hlen. lia.
    + pose proof (length_flat_map_two
                    (λ s, replicate (occurrences k (keys_of s)) s)
                    scenes j i scene2 scene1 Hlt Hj Hi) as Hlen.
      cbn beta in Hlen. rewrite !length_replicate in Hlen. lia.
  - apply select_elem. split; [by eapply list_elem_of_lookup_2 | done].
  - apply select_elem. split; [by eapply list_elem_of_lookup_2 | done].
Qed.

(** X8.  Two scenes at different places of the catalog that name the same
    non-empty identifier are reported together: identifier grouping returns
    a group under that identifier, and both are members. *)
Theorem shared_identifier_is_reported
    (scenes : list Scene) (i j : nat) (scene1 scene2 : Scene)
    (k : string) (stash_id1 stash_id2 : gmap string string) :
  scenes !! i = Some scene1 → scenes !! j = Some scene2 → i ≠ j →
  k ≠ "" →
  stash_id1 ∈ stash_ids scene1 → names k stash_id1 →
  stash_id2 ∈ stash_ids scene2 → names k stash_id2 →
  ∃ g, Dict.lookup k (find_duplicates_by_stashid scenes) = Some g
       ∧ scene1 ∈ g ∧ scene2 ∈ g.
Proof.
  intros Hi Hj Hij Hne Hm1 Hn1 Hm2 Hn2.
  unfold find_duplicates_by_stashid. rewrite stashid_groups_collect.
  apply (shared_key_is_reported stash_id_values scenes i j); try done;
    apply stash_id_values_elem; eauto.
Qed.

Lemma shared_identifier_is_reported_witness :
  ∃ scene1 scene2 g,
    small_catalog !! 1 = Some scene1 ∧ small_catalog !! 3 = Some scene2
    ∧ Dict.lookup "st-99" (find_duplicates_by_stashid small_catalog) = Some g
    ∧ scene1 ∈ g ∧ scene2 ∈ g.
Proof.
  eexists _, _.
  destruct (shared_identifier_is_reported small_catalog 1 3 _ _ "st-99"
              {[ "stash_id" := "st-99" ]} {[ "stash_id" := "st-99" ]}
              eq_refl eq_refl) as (g & Hg);
    [discriminate | discriminate | left | reflexivity | left | reflexivity |].
  exists g. split_and!; [reflexivity | reflexivity | apply Hg..].
Defined.

(** X9.  Two scenes at different places of the catalog that own a
    fingerprint of the strategy's kind with the same non-empty value are
    reported together by the content-hash and by the perceptual-hash
    strategy. *)
Theorem shared_fingerprint_is_reported
    (kind : string) (strategy : list Scene → Dict.t (list Scene))
    (scenes : list Scene) (i j : nat) (scene1 scene2 : Scene)
    (value : string) (file1 file2 : File) (fp1 fp2 : Fingerprint) :
  fingerprint_strategy kind = Some strategy →
  scenes !! i = Some scene1 → scenes !! j = Some scene2 → i ≠ j →
  value ≠ "" →
  file1 ∈ files scene1 → fp1 ∈ default [] (fingerprints file1) →
  carries kind value fp1 →
  file2 ∈ files scene2 → fp2 ∈ default [] (fingerprints file2) →
  carries kind value fp2 →
  ∃ g, Dict.lookup value (strategy scenes) = Some g
       ∧ scene1 ∈ g ∧ scene2 ∈ g.
Proof.
  intros Hkind Hi Hj Hij Hne Hf1 Hp1 Hc1 Hf2 Hp2 Hc2.
  rewrite (fingerprint_strategy_spec kind strategy) by done.
  rewrite fingerprint_groups_collect.
  apply (shared_key_is_reported (fingerprint_values kind) scenes i j);
    try done; apply fingerprint_values_elem; eauto 10.
Qed.

Lemma shared_fingerprint_is_reported_witness :
  ∃ g, Dict.lookup "p9" (find_duplicates_by_phash [twin_left; apple;
                                                   twin_right]) = Some g
       ∧ twin_left ∈ g ∧ twin_right ∈ g.
Proof.
  apply (shared_fingerprint_is_reported "phash" find_duplicates_by_phash
           [twin_left; apple; twin_right] 0 2 twin_left twin_right "p9"
           {| fingerprints := Some [fingerprint "oshash" "o1";
                                    fingerprint "phash" "p9"];
              metadata := ∅ |}
           {| fingerprints := Some [fingerprint "oshash" "o2";
                                    fingerprint "phash" "p9"];
              metadata := ∅ |}
           (fingerprint "phash" "p9") (fingerprint "phash" "p9"));
    try reflexivity; try discriminate;
    try (left; fail); try (right; left; fail); split; reflexivity.
Defined.

(** ** The pages the handlers answer with *)






(** X11.  A failed fetch is shown, never hidden: when [fetch_all_scenes]
    raises, the duplicates handler answers with the error page that carries
    the exception's detail, for every selector, known or not, and so does
    the main page on a configured installation. *)
Theorem fetch_failure_is_shown
    (ratio : string → string → Q) (duplicate_type : string) (w : World)
    (e : HTTPException) :
  upstream w (get_config w) = inl e →
  outcome (find_duplicates ratio duplicate_type w)
  = inr (ErrorHtml ("Error fetching data: " +:+ detail e) (get_config w))
  ∧ (stash_endpoint (get_config w) ≠ "" →
     stash_endpoint (get_config w) ≠ placeholder_endpoint →
     outcome (root w)
     = inr (ErrorHtml ("Error fetching data: " +:+ detail e) (get_config w))).
Proof.
  intros Hfetch. split.
  - unfold find_duplicates. by rewrite Hfetch.
  - intros Hne Hplace. unfold root. cbn [truthy].
    rewrite decide_False by done. rewrite bool_decide_eq_false_2 by done.
    cbn. by rewrite Hfetch.
Qed.

Lemma fetch_failure_is_shown_witness :
  outcome (find_duplicates indel_ratio "md5" unreachable)
  = inr (ErrorHtml
           "Error fetching data: Failed to connect to Stash: refused"
           (get_config unreachable)).
Proof.
  exact (proj1 (fetch_failure_is_shown indel_ratio "md5" unreachable
                  {| status_code := 500;
                     detail := "Failed to connect to Stash: refused" |}
                  eq_refl)).
Defined.


(** ** Settings and the catalog client *)

Lemma config_round_trip (config : StashConfig) :
  StashConfig_of_dict (config_dict config) = Some config.
Proof. by destruct config. Qed.


Lemma update_settings_loaded (endpoint key : string) (w : World) :
  get_config (update_settings endpoint key w).1
  = {| stash_endpoint := endpoint;
       api_key := if decide (key = "") then None else Some key |}.
Proof.
  unfold update_settings, get_config, save_config. cbn [fst config_file].
  rewrite config_round_trip. cbn [truthy]. by case_decide.
Qed.

(** X14.  After the settings form is posted the browser is sent back to
    the main page, and the main page fetches from the posted endpoint
    exactly when that is neither empty nor the placeholder; otherwise it
    redirects to the settings again without fetching.  An empty API key is
    stored as no key. *)
Theorem settings_form_then_main_page (endpoint key : string) (w : World) :
  (update_settings endpoint key w).2 = RedirectResponse "/" 303
  ∧ get_config (update_settings endpoint key w).1
    = {| stash_endpoint := endpoint;
         api_key := if decide (key = "") then None else Some key |}
  ∧ (endpoint = "" ∨ endpoint = placeholder_endpoint →
     fetches (root (update_settings endpoint key w).1) = []
     ∧ outcome (root (update_settings endpoint key w).1)
       = inr (RedirectResponse "/settings" 307))
  ∧ (endpoint ≠ "" → endpoint ≠ placeholder_endpoint →
     fetches (root (update_settings endpoint key w).1)
     = [get_config (update_settings endpoint key w).1]
     ∧ ∀ url status,
         outcome (root (update_settings endpoint key w).1)
         ≠ inr (RedirectResponse url status)).
Proof.
  split_and!; [done | apply update_settings_loaded | |].
  - intros Hunset. unfold root. rewrite update_settings_loaded.
    cbn [stash_endpoint truthy]. destruct Hunset as [-> | ->]; done.
  - intros Hne Hplace. unfold root. rewrite update_settings_loaded.
    cbn [stash_endpoint truthy]. rewrite decide_False by done.
    rewrite bool_decide_eq_false_2 by done. cbn [negb orb].
    destruct (upstream _ _); done.
Qed.

(** X15.  The request of [fetch_all_scenes] goes to the configured
    endpoint as JSON and carries the header [ApiKey] exactly when the
    configuration has a non-empty key, with that key: none with the default
    configuration of a missing [config.json], and after the settings form
    the key that was typed, or none for an empty one. *)
Theorem request_carries_key_only_when_set
    (config : StashConfig) (endpoint key : string) (w : World) :
  url (request_for config) = stash_endpoint config
  ∧ Dict.lookup "Content-Type" (headers (request_for config))
    = Some "application/json"
  ∧ Dict.lookup "ApiKey" (headers (request_for config))
    = match api_key config with
      | Some k => if decide (k = "") then None else Some k
      | None => None
      end
  ∧ Dict.keys (headers (request_for config)) ⊆ ["Content-Type"; "ApiKey"]
  ∧ (config_file w = None →
     Dict.lookup "ApiKey" (headers (request_for (get_config w))) = None)
  ∧ url (request_for (get_config (update_settings endpoint key w).1))
    = endpoint
  ∧ Dict.lookup "ApiKey"
      (headers (request_for (get_config (update_settings endpoint key w).1)))
    = if decide (key = "") then None else Some key.
Proof.
  assert (∀ c, Dict.lookup "ApiKey" (headers (request_for c))
               = match api_key c with
                 | Some k => if decide (k = "") then None else Some k
                 | None => None
                 end) as Hkey.
  { intros [e [k|]]; cbn; [|done]. by destruct (decide (k = "")). }
  split_and!.
  - done.
  - destruct config as [e [k|]]; cbn; [|done]. by destruct (decide (k = "")).
  - apply Hkey.
  - destruct config as [e [k|]]; cbn; [destruct (decide (k = ""))|];
      cbn; set_solver.
  - intros Hnone. rewrite Hkey. unfold get_config. by rewrite Hnone.
  - by rewrite update_settings_loaded.
  - rewrite Hkey, update_settings_loaded. cbn [api_key].
    by repeat case_decide.
Qed.



(** ** Normalised titles *)

Section Normalisation.
Implicit Types (s acc : string) (c : ascii).

Lemma lower_char_idem c : lower_char (lower_char c) = lower_char c.
Proof. destruct c as [[] [] [] [] [] [] [] []]; reflexivity. Qed.

Lemma isspace_lower_char c : isspace (lower_char c) = isspace c.
Proof. destruct c as [[] [] [] [] [] [] [] []]; reflexivity. Qed.

Lemma lower_idem s : lower (lower s) = lower s.
Proof. induction s as [|c s IH]; [done|]. cbn. by rewrite lower_char_idem, IH. Qed.

Lemma lower_lstrip s : lower (lstrip s) = lstrip (lower s).
Proof.
  induction s as [|c s IH]; [done|]. cbn [lstrip lower].
  rewrite isspace_lower_char. by destruct (isspace c).
Qed.

Lemma lower_rev_app s acc :
  lower (String.rev_app s acc) = String.rev_app (lower s) (lower acc).
Proof.
  revert acc. induction s as [|c s IH]; intros acc; [done|].
  cbn. by rewrite IH.
Qed.

Lemma lower_strip s : lower (strip s) = strip (lower s).
Proof.
  unfold strip, rstrip, String.rev.
  by rewrite !lower_rev_app, !lower_lstrip, !lower_rev_app, lower_lstrip.
Qed.

Lemma append_cons c s acc : String c s +:+ acc = String c (s +:+ acc).
Proof. reflexivity. Qed.

Lemma append_assoc (s1 s2 s3 : string) :
  (s1 +:+ s2) +:+ s3 = s1 +:+ (s2 +:+ s3).
Proof.
  induction s1 as [|c s1 IH]; [done|]. by rewrite !append_cons, IH.
Qed.

Lemma rev_app_spec s acc :
  String.rev_app s acc = String.rev s +:+ acc.
Proof.
  unfold String.rev. revert acc.
  induction s as [|c s IH]; intros acc; [done|].
  cbn [String.rev_app]. rewrite IH, (IH (String c "")), append_assoc. done.
Qed.

Lemma rev_cons c s : String.rev (String c s) = String.rev s +:+ String c "".
Proof. unfold String.rev at 1. cbn. apply rev_app_spec. Qed.

Lemma rev_app_snoc s c acc :
  String.rev_app (s +:+ String c "") acc = String c (String.rev_app s acc).
Proof. revert acc. induction s as [|c' s IH]; intros acc; [done|]. cbn. apply IH. Qed.

Lemma rev_snoc s c : String.rev (s +:+ String c "") = String c (String.rev s).
Proof. apply rev_app_snoc. Qed.

(** [lstrip] after one more character at the end. *)
Lemma lstrip_snoc s c :
  lstrip (s +:+ String c "")
  = match lstrip s with
    | EmptyString => if isspace c then EmptyString else String c EmptyString
    | String _ _ as r => r +:+ String c ""
    end.
Proof.
  induction s as [|c' s IH].
  { change (lstrip (String c "")
            = if isspace c then EmptyString else String c EmptyString).
    cbn [lstrip]. by destruct (isspace c). }
  rewrite append_cons. cbn [lstrip]. destruct (isspace c'); [apply IH | done].
Qed.

(** [rstrip] by recursion from the left. *)
Lemma rstrip_cons c s :
  rstrip (String c s)
  = match rstrip s with
    | EmptyString => if isspace c then EmptyString else String c EmptyString
    | String _ _ as r => String c r
    end.
Proof.
  unfold rstrip. rewrite rev_cons, lstrip_snoc.
  destruct (lstrip (String.rev s)) as [|c' r].
  - cbn. by destruct (isspace c).
  - rewrite rev_snoc. rewrite rev_cons.
    by destruct (String.rev r).
Qed.

Lemma rstrip_idem s : rstrip (rstrip s) = rstrip s.
Proof.
  induction s as [|c s IH]; [done|]. rewrite rstrip_cons.
  destruct (rstrip s) as [|c' r] eqn:E.
  - destruct (isspace c) eqn:Ec; [done|].
    rewrite rstrip_cons. change (rstrip "") with "". cbn. by rewrite Ec.
  - rewrite rstrip_cons, IH. done.
Qed.

Lemma lstrip_rstrip_lstrip s : lstrip (rstrip (lstrip s)) = rstrip (lstrip s).
Proof.
  induction s as [|c s IH]; [done|]. cbn [lstrip].
  destruct (isspace c) eqn:Ec; [apply IH|]. rewrite rstrip_cons.
  destruct (rstrip s); rewrite ?Ec; cbn [lstrip]; by rewrite Ec.
Qed.

Lemma strip_idem s : strip (strip s) = strip s.
Proof. unfold strip. by rewrite lstrip_rstrip_lstrip, rstrip_idem. Qed.
End Normalisation.

(** X17.  The keys of the title buckets, and so of the groups of the fuzzy
    name strategy, are normal forms: lower-casing a key or stripping it
    changes nothing, so a key has no surrounding white space and no
    upper-case letter. *)
Theorem title_keys_are_normal_forms
    (ratio : string → string → Q) (scenes : list Scene) :
  Forall (λ k, lower k = k ∧ strip k = k) (Dict.keys (title_groups scenes))
  ∧ Forall (λ k, lower k = k ∧ strip k = k)
           (Dict.keys (find_duplicates_by_name ratio scenes)).
Proof.
  assert (Forall (λ k, lower k = k ∧ strip k = k)
                 (Dict.keys (title_groups scenes))) as Hkeys.
  { apply Forall_forall. intros k (s & _ & _ & <-)%titles_spec. split.
    - by rewrite lower_strip, lower_idem.
    - apply strip_idem. }
  split; [done|]. rewrite Forall_forall in Hkeys |- *.
  intros k Hk. apply Hkeys.
  apply list_elem_of_fmap in Hk as ([k' g] & -> & Hin).
  apply name_group_provenance in Hin as (i & Hi & _).
  by eapply list_elem_of_lookup_2.
Qed.

(** ** When nothing is reported *)

Lemma NoDup_occurrences (ks : list string) :
  NoDup ks ↔ ∀ k, occurrences k ks ≤ 1.
Proof.
  unfold occurrences. induction ks as [|k' ks IH].
  - split; [intros _ k; cbn; lia | intros _; apply NoDup_nil_2].
  - rewrite NoDup_cons, IH. split.
    + intros [Hk' Hks] k. rewrite filter_cons.
      destruct (decide (k' = k)) as [->|]; [|apply Hks].
      pose proof (occurrences_absent k ks Hk') as Hz.
      unfold occurrences in Hz. cbn [length]. lia.
    + intros Hall. split.
      * intros Hin%occurrences_present. unfold occurrences in Hin.
        specialize (Hall k'). rewrite filter_cons_True in Hall by done.
        cbn [length] in Hall. lia.
      * intros k. specialize (Hall k). rewrite filter_cons in Hall.
        destruct (decide (k' = k)); cbn [length] in Hall; lia.
Qed.

Lemma length_select k (es : list (string * Scene)) :
  length (select k es) = occurrences k es.*1.
Proof.
  unfold select, occurrences. rewrite length_fmap.
  induction es as [|[k' s] es IH]; [done|].
  rewrite fmap_cons, !filter_cons. cbn [fst].
  destruct (decide (k' = k)); cbn [length]; by rewrite IH.
Qed.

Lemma keys_entries_of (keys_of : Scene → list string) scenes :
  (entries_of keys_of scenes).*1 = flat_map keys_of scenes.
Proof.
  unfold entries_of. induction scenes as [|s scenes IH]; [done|].
  cbn [flat_map]. rewrite fmap_app, IH. f_equal.
  induction (keys_of s) as [|k ks IHk]; [done|]. cbn. by rewrite IHk.
Qed.

(** A bucket strategy reports nothing exactly when no key is contributed
    twice. *)
Lemma nothing_reported (keys_of : Scene → list string) scenes :
  Dict.comprehension Dict.more_than_one
    (collect (entries_of keys_of scenes) Dict.empty) = []
  ↔ NoDup (flat_map keys_of scenes).
Proof.
  rewrite NoDup_occurrences, <- keys_entries_of. split.
  - intros Hnone k. rewrite <- length_select.
    destruct (decide (2 ≤ length (select k (entries_of keys_of scenes))))
      as [Hlen|]; [|lia].
    assert ((k, select k (entries_of keys_of scenes))
            ∈ Dict.comprehension Dict.more_than_one
                (collect (entries_of keys_of scenes) Dict.empty)) as Hin
      by (by apply returned_bucket).
    rewrite Hnone in Hin. by apply elem_of_nil in Hin.
  - intros Hall.
    destruct (Dict.comprehension _ _) as [|[k g] d] eqn:E; [done|].
    assert ((k, g) ∈ Dict.comprehension Dict.more_than_one
                       (collect (entries_of keys_of scenes) Dict.empty))
      as Hin by (rewrite E; left).
    apply returned_bucket in Hin as [-> Hlen].
    rewrite length_select in Hlen. specialize (Hall k). lia.
Qed.

(** X18.  Identifier grouping reports nothing exactly when no non-empty
    identifier is named twice in the whole catalog, a scene that names one
    twice included; in particular on the empty catalog. *)
Theorem no_identifier_group_iff_no_repeat (scenes : list Scene) :
  find_duplicates_by_stashid scenes = []
  ↔ NoDup (flat_map stash_id_values scenes).
Proof.
  unfold find_duplicates_by_stashid. rewrite stashid_groups_collect.
  apply nothing_reported.
Qed.

(** X19.  The content-hash and the perceptual-hash strategy report nothing
    exactly when no non-empty value of their kind is carried twice in the
    whole catalog. *)
Theorem no_fingerprint_group_iff_no_repeat
    (kind : string) (strategy : list Scene → Dict.t (list Scene))
    (scenes : list Scene) :
  fingerprint_strategy kind = Some strategy →
  strategy scenes = []
  ↔ NoDup (flat_map (fingerprint_values kind) scenes).
Proof.
  intros Hkind. rewrite (fingerprint_strategy_spec kind strategy) by done.
  rewrite fingerprint_groups_collect. apply nothing_reported.
Qed.

Lemma no_fingerprint_group_iff_no_repeat_witness :
  find_duplicates_by_phash [two_copies; apple] = [].
Proof.
  apply (no_fingerprint_group_iff_no_repeat "phash" find_duplicates_by_phash
           [two_copies; apple] eq_refl).
  assert (flat_map (fingerprint_values "phash") [two_copies; apple]
          = ["p1"; "p2"]) as -> by reflexivity.
  apply NoDup_cons. split; [|apply NoDup_singleton].
  by intros [=]%list_elem_of_singleton.
Defined.

(** ** How many scenes the fuzzy name strategy reports *)

Section Weight.
Variable scenes : list Scene.

(** The scenes with a non-empty title that normalises into [consumed]. *)
Local Abbreviation titled_in consumed :=
  (filter (λ s, title s ≠ "" ∧ strip (lower (title s)) ∈ consumed) scenes).

Lemma length_titled_in_add (consumed : gset string) t :
  t ∉ consumed →
  length (titled_in ({[t]} ∪ consumed))
  = length (Dict.get t (title_groups scenes)) + length (titled_in consumed).
Proof.
  intros Hfresh. rewrite title_bucket.
  induction scenes as [|s l IH]; [done|]. rewrite !filter_cons.
  destruct (decide (title s ≠ "" ∧ strip (lower (title s)) = t))
    as [[Hne <-]|Hn].
  - rewrite decide_True by (split; [done | set_solver]).
    rewrite (decide_False (P := _ ∧ _ ∈ consumed)) by (by intros [_ ?]).
    cbn [length]. by rewrite IH.
  - destruct (decide (title s ≠ "" ∧ strip (lower (title s)) ∈ consumed))
      as [[Hne Hin]|Hn'].
    + rewrite decide_True by (split; [done | set_solver]).
      cbn [length]. rewrite IH. lia.
    + rewrite decide_False; [done|]. intros [Hne Hin]. set_solver.
Qed.

Lemma length_titled_in_adds (consumed : gset string) (ts : list string) :
  NoDup ts → (∀ t, t ∈ ts → t ∉ consumed) →
  length (titled_in (list_to_set ts ∪ consumed))
  = length (flat_map (λ t, Dict.get t (title_groups scenes)) ts)
    + length (titled_in consumed).
Proof.
  induction ts as [|t ts IH]; intros Hnd Hfresh.
  - cbn [list_to_set foldr flat_map length].
    by replace (∅ ∪ consumed) with consumed by set_solver.
  - apply NoDup_cons in Hnd as [Ht Hnd]. cbn [list_to_set foldr flat_map].
    replace ({[t]} ∪ list_to_set ts ∪ consumed)
      with ({[t]} ∪ (list_to_set ts ∪ consumed)) by set_solver.
    rewrite length_titled_in_add, length_app, IH; [lia | done | |].
    + intros t' Ht'. apply Hfresh. by right.
    + rewrite not_elem_of_union, elem_of_list_to_set.
      split; [done | apply Hfresh; left].
Qed.
End Weight.

Lemma total_scenes_set_fresh (d : Dict.t (list Scene)) k v :
  k ∉ Dict.keys d → total_scenes (Dict.set k v d) = total_scenes d + length v.
Proof.
  intros Hk. rewrite set_fresh by done. unfold total_scenes, Dict.values.
  rewrite !fmap_app, sum_list_with_app.
  change (sum_list (length <$> [(k, v)].*2)) with (length v + 0).
  by rewrite Nat.add_0_r.
Qed.

Lemma name_total_upto (ratio : string → string → Q) scenes n :
  total_scenes (fuzzy_groups (merge_upto ratio n scenes))
  ≤ length (filter (λ s, title s ≠ ""
                         ∧ strip (lower (title s))
                           ∈ processed (merge_upto ratio n scenes)) scenes).
Proof.
  induction n as [|n IH]; [apply Nat.le_0_l|].
  destruct (Dict.keys (title_groups scenes) !! n) as [t|] eqn:Ht;
    [|by rewrite (merge_upto_beyond ratio scenes n Ht)].
  destruct (decide (t ∈ processed (merge_upto ratio n scenes))) as [Hin|Hin].
  { rewrite (merge_upto_S ratio scenes n t Ht).
    by rewrite outer_body_skip by done. }
  rewrite (merge_upto_seed ratio scenes n t Ht Hin).
  cbn [processed fuzzy_groups].
  set (merged := merged_titles ratio (processed (merge_upto ratio n scenes)) t
                   (drop (S n) (Dict.keys (title_groups scenes)))).
  assert (NoDup (t :: merged)) as Hnd.
  { pose proof (titles_distinct scenes) as Hall.
    rewrite <- (take_drop_middle _ n t Ht) in Hall.
    apply NoDup_app in Hall as (_ & _ & Hall).
    apply NoDup_cons in Hall as [Ht' Hall]. apply NoDup_cons. split.
    - intros Hm. apply Ht'. unfold merged, merged_titles in Hm.
      by apply list_elem_of_filter in Hm as [_ ?].
    - eapply sublist_NoDup; [done | apply sublist_filter]. }
  pose proof (length_titled_in_adds scenes
                (processed (merge_upto ratio n scenes)) (t :: merged) Hnd)
    as Hweight.
  cbn [list_to_set foldr flat_map] in Hweight. rewrite length_app in Hweight.
  replace ({[t]} ∪ (list_to_set merged
                    ∪ processed (merge_upto ratio n scenes)))
    with ({[t]} ∪ list_to_set merged ∪ processed (merge_upto ratio n scenes))
    by set_solver.
  rewrite Hweight
    by (intros t' Ht'; by apply (seed_titles_fresh ratio scenes n t)).
  case_match; [|lia].
  rewrite total_scenes_set_fresh, length_app; [lia|].
  intros Hk. by apply Hin, keys_consumed_upto.
Qed.

(** X20.  The fuzzy name strategy reports at most as many member entries
    as the catalog has scenes with a non-empty title: no scene is counted
    twice, unlike under the identifier and fingerprint strategies. *)
Theorem name_total_is_bounded
    (ratio : string → string → Q) (scenes : list Scene) :
  total_scenes (find_duplicates_by_name ratio scenes)
  ≤ length (filter (λ s, title s ≠ "") scenes)
  ∧ length (filter (λ s, title s ≠ "") scenes) ≤ length scenes.
Proof.
  split; [|apply length_filter].
  unfold find_duplicates_by_name. rewrite merge_all_upto.
  etrans; [apply name_total_upto|].
  generalize (processed (merge_upto ratio
                           (length (Dict.keys (title_groups scenes)))
                           scenes)).
  intros consumed. induction scenes as [|s l IH]; [done|].
  rewrite !filter_cons.
  repeat case_decide; cbn [length]; first [lia | exfalso; tauto].
Qed.

(** X21.  Every member of a group of the fuzzy name strategy is directly
    similar to the group's key: its title is not empty and normalises to the
    key or to a title whose ratio with the key exceeds 85.  Similarity to
    another member alone brings no scene into a group. *)
Theorem name_group_members_match_the_key
    (ratio : string → string → Q) (scenes : list Scene) :
  Forall (λ kv,
            Forall (λ scene,
                      scene ∈ scenes ∧ title scene ≠ ""
                      ∧ (strip (lower (title scene)) = kv.1
                         ∨ (85 < ratio kv.1 (strip (lower (title scene))))%Q))
                   kv.2)
         (find_duplicates_by_name ratio scenes).
Proof.
  apply Forall_forall. intros [k g] (i & _ & _ & ->)%name_group_provenance.
  apply Forall_forall. intros scene (Hin & Hne & Ht)%seed_group_member.
  cbn [fst]. split_and!; [done..|].
  apply elem_of_cons in Ht as [->|Hm]; [by left | right].
  unfold merged_titles in Hm. by apply list_elem_of_filter in Hm as [[_ ?] _].
Qed.
